(** * oldp content-processing pipeline

    Shallow embedding of [oldp/apps/processing/content_processor.py]
    (input handlers, [ContentProcessor]) and of the management command
    [oldp/apps/cases/management/commands/process_cases.py], followed by the
    properties of the pipeline that the specification states. *)

From Stdlib Require Import String Ascii List ZArith Bool Lia Permutation.
From Stdlib Require Import Sorting.Sorted.
Import ListNotations.

Local Open Scope string_scope.
Local Open Scope list_scope.
Local Open Scope Z_scope.

Set Implicit Arguments.
Set Warnings "-register-all,-notation-for-abbreviation".

(** ** Python sequences *)

Module PySeq.

Section Slices.
Context {A : Type}.

(** The index a slice bound denotes in a list of length [n]: a negative
    bound counts from the end, and everything is clamped to [0..n]. *)
Definition clamp (n : nat) (i : Z) : nat :=
  if i <? 0 then Z.to_nat (Z.max 0 (Z.of_nat n + i))
  else Nat.min n (Z.to_nat i).

(** [l[start:]] *)
Definition slice_from (l : list A) (start : Z) : list A :=
  skipn (clamp (length l) start) l.

(** [l[:stop]] *)
Definition slice_to (l : list A) (stop : Z) : list A :=
  firstn (clamp (length l) stop) l.

(** [l[start:stop]] *)
Definition slice (l : list A) (start stop : Z) : list A :=
  let lo := clamp (length l) start in
  let hi := clamp (length l) stop in
  firstn (hi - lo) (skipn lo l).

(** [len(l)] as a Python integer. *)
Definition len (l : list A) : Z := Z.of_nat (length l).
End Slices.

(** [sorted(l)] on a list of [str]: strings compare by code point, which
    on UTF-8 bytes is [String.leb]. *)
Fixpoint insert_sorted (x : string) (l : list string) : list string :=
  match l with
  | [] => [x]
  | y :: r => if String.leb x y then x :: l else y :: insert_sorted x r
  end.

Definition sorted (l : list string) : list string :=
  fold_right insert_sorted [] l.

End PySeq.

(** ** Python strings *)

(** [s.split(sep)] for a one-character separator. *)
Fixpoint str_split (sep : ascii) (s : string) : list string :=
  match s with
  | EmptyString => [EmptyString]
  | String c r =>
      if Ascii.eqb c sep then EmptyString :: str_split sep r
      else match str_split sep r with
           | [] => [String c EmptyString]
           | x :: xs => String c x :: xs
           end
  end.

(** ** The file system seen by [os.path] and [glob] *)

Module FS.

(** A tree of regular files and directories (no links, no special files).
    Paths are resolved from the root of the tree, which stands both for [/]
    and for the working directory. *)
Inductive node : Type :=
| File : node
| Dir : list (string * node) -> node.

Definition slash : ascii := "/"%char.

Fixpoint lookup_entry (name : string) (es : list (string * node)) : option node :=
  match es with
  | [] => None
  | (n, x) :: r => if String.eqb n name then Some x else lookup_entry name r
  end.

(** Path resolution, one component at a time; [up] holds the ancestors of
    the current directory for [..]. *)
Fixpoint walk (up : list node) (cur : node) (comps : list string) : option node :=
  match comps with
  | [] => Some cur
  | c :: cs =>
      match cur with
      | File => None
      | Dir es =>
          if String.eqb c "" || String.eqb c "." then walk up cur cs
          else if String.eqb c ".." then
                 match up with
                 | [] => walk [] cur cs
                 | p :: up' => walk up' p cs
                 end
          else match lookup_entry c es with
               | None => None
               | Some x => walk (cur :: up) x cs
               end
      end
  end.

Definition resolve (fs : node) (p : string) : option node :=
  if String.eqb p "" then None else walk [] fs (str_split slash p).

(** [os.path.isdir], [os.path.isfile], [os.listdir] *)
Definition isdir (fs : node) (p : string) : bool :=
  match resolve fs p with Some (Dir _) => true | _ => false end.

Definition isfile (fs : node) (p : string) : bool :=
  match resolve fs p with Some File => true | _ => false end.

Definition listdir (fs : node) (p : string) : list string :=
  match resolve fs p with Some (Dir es) => map fst es | _ => [] end.

(** [posixpath.split]: cut after the last slash, then strip the trailing
    slashes of the head unless the head is made of slashes only. *)
Fixpoint cut_last_slash (p : string) : string * string :=
  match p with
  | EmptyString => (EmptyString, EmptyString)
  | String c r =>
      let (h, t) := cut_last_slash r in
      if String.eqb h "" then
        if Ascii.eqb c slash then (String c EmptyString, r)
        else (EmptyString, String c r)
      else (String c h, t)
  end.

Fixpoint all_slashes (s : string) : bool :=
  match s with
  | EmptyString => true
  | String c r => Ascii.eqb c slash && all_slashes r
  end.

Fixpoint rstrip_slashes (s : string) : string :=
  match s with
  | EmptyString => EmptyString
  | String c r => if all_slashes s then EmptyString else String c (rstrip_slashes r)
  end.

Definition os_path_split (p : string) : string * string :=
  let (h, t) := cut_last_slash p in
  (if all_slashes h then h else rstrip_slashes h, t).

Fixpoint ends_with_slash (s : string) : bool :=
  match s with
  | EmptyString => false
  | String c EmptyString => Ascii.eqb c slash
  | String _ r => ends_with_slash r
  end.

(** [os.path.join(d, name)] for a relative [name]. *)
Definition os_path_join (d name : string) : string :=
  if String.eqb d "" then name
  else if ends_with_slash d then d ++ name
  else d ++ "/" ++ name.

(** [glob._ishidden] *)
Definition ishidden (name : string) : bool :=
  match name with
  | String c _ => Ascii.eqb c "."%char
  | EmptyString => false
  end.

(** [glob.has_magic]: the name holds one of the characters [*], [?] and
    [[], which [glob] reads as a pattern in the directory part too. *)
Fixpoint has_magic (s : string) : bool :=
  match s with
  | EmptyString => false
  | String c r =>
      Ascii.eqb c "*" || Ascii.eqb c "?" || Ascii.eqb c "[" || has_magic r
  end.

(** [glob.glob(pattern, recursive=True)] for the patterns this program
    builds: a directory name without metacharacters followed by [/*].  The
    last component [*] matches every entry of that directory whose name
    does not start with a dot, whatever its kind; only a component [**]
    would descend into subdirectories, with or without [recursive].
    A directory name for which [has_magic] holds is itself expanded as a
    pattern by [glob]; that expansion is not modelled here, and what is
    proved of the keys of a directory in general is proved of names for
    which [has_magic] is [false]. *)
Definition glob (fs : node) (pattern : string) : list string :=
  let (dirname, basename) := os_path_split pattern in
  if String.eqb basename "*" then
    map (os_path_join dirname)
        (filter (fun n => negb (ishidden n))
                (listdir fs (if String.eqb dirname "" then "." else dirname)))
  else [].

End FS.

(** ** Values and exceptions *)

(** What [input_selector] can hold: [None], a [str], a [list] of selectors,
    a [tuple] of values, or a value of any other type.  Tuples stand apart
    because the [%] operator takes a tuple as the list of its arguments. *)
Inductive selector : Type :=
| SelNone : selector
| SelStr : string -> selector
| SelList : list selector -> selector
| SelTuple : list selector -> selector
| SelOther : selector.

Definition is_tuple (sel : selector) : bool :=
  match sel with SelTuple _ => true | _ => false end.

(** The messages of the exceptions the pipeline raises itself, as format
    and argument; [MsgText] is the message of an error raised elsewhere. *)
Inductive message : Type :=
| MsgSelectorNotSet                      (* 'input_selector is not set' *)
| MsgSelectorEmpty (sel : selector)      (* 'Input selector is empty: %s' *)
| MsgStepNotAvailable (step : string)    (* 'Requested step is not available: %s' *)
| MsgNoProcessingStepClass (pkg : string)
| MsgNotBaseProcessingStep (pkg : string)
| MsgText (text : string).

(** Exceptions, by class.  [ProcessingError] is the only class the
    pipeline catches. *)
Inductive exn : Type :=
| ProcessingError (m : message)
| ValueError (text : string)
| TypeError (text : string)
| NotImplementedError (text : string)
| AttributeError (text : string)
| ImportError (text : string)
| OtherException (text : string).

Definition is_ProcessingError (e : exn) : bool :=
  match e with ProcessingError _ => true | _ => false end.

(** The outcome of a call: it returns a value or raises. *)
Inductive result (A : Type) : Type :=
| Ok : A -> result A
| Raise : exn -> result A.
Arguments Ok {A} _.
Arguments Raise {A} _.

(** ** Input handlers *)

(** The two families of handlers: those that derive from [InputHandlerFS]
    and those that read the database. *)
Inductive handler_kind : Type := HandlerFS | HandlerDB.

Section InputHandlers.
Variable Unit : Type.

Record InputHandler : Type := mkInputHandler {
  handler_class : handler_kind;
  input_selector : selector;
  input_limit : Z;
  input_start : Z;
  handler_queue : list Unit      (* InputHandler.pre_processed_content *)
}.

(** [InputHandler.__init__(limit, start, selector)] in a subclass of
    kind [k]; the queue is the class attribute until [process] replaces
    it. *)
Definition new_handler (k : handler_kind) (limit start : Z) (sel : selector)
  : InputHandler :=
  mkInputHandler k sel limit start [].

Definition with_handler_queue (h : InputHandler) (q : list Unit) : InputHandler :=
  mkInputHandler (handler_class h) (input_selector h) (input_limit h)
                 (input_start h) q.
End InputHandlers.

Module InputHandlerFS.
Import PySeq.

Definition dir_selector : string := "/*".

Fixpoint get_input_content_from_selector (fs : FS.node) (sel : selector)
  : list string :=
  match sel with
  | SelStr s =>
      if FS.isdir fs s then sorted (FS.glob fs (s ++ dir_selector))
      else if FS.isfile fs s then [s]
      else []
  | SelList l => flat_map (get_input_content_from_selector fs) l
  | _ => []
  end.

(** What [raise ProcessingError('Input selector is empty: %s' % sel)]
    raises.  A tuple on the right of [%] is the list of the arguments of
    the format: one item fills the [%s], any other number makes the
    formatting itself fail with [TypeError]. *)
Definition empty_input_error (sel : selector) : exn :=
  match sel with
  | SelTuple [x] => ProcessingError (MsgSelectorEmpty x)
  | SelTuple [] => TypeError "not enough arguments for format string"
  | SelTuple _ =>
      TypeError "not all arguments converted during string formatting"
  | _ => ProcessingError (MsgSelectorEmpty sel)
  end.

Definition get_input {Unit} (fs : FS.node) (h : InputHandler Unit)
  : result (list string) :=
  match input_selector h with
  | SelNone => Raise (ProcessingError MsgSelectorNotSet)
  | sel =>
      let content_list :=
        slice_from (get_input_content_from_selector fs sel) (input_start h) in
      if len content_list <? 1 then
        Raise (empty_input_error sel)
      else if input_limit h >? 0 then
        Ok (slice_to content_list (input_limit h))
      else Ok content_list
  end.
End InputHandlerFS.

(** A small tree for examples:
    [d/b.json], [d/a.json], [d/.hidden], [d/sub/c.json] and [top.json]. *)
Definition fs_example : FS.node :=
  FS.Dir [ ("d", FS.Dir [ ("b.json", FS.File); ("a.json", FS.File);
                          (".hidden", FS.File);
                          ("sub", FS.Dir [ ("c.json", FS.File) ]) ]);
           ("top.json", FS.File) ].

(** ** Dictionaries *)

(** A [dict] with [str] keys, in insertion order; assigning to a key that
    is present keeps its place. *)
Definition dict (V : Type) : Type := list (string * V).

Section Dict.
Context {V : Type}.

Fixpoint dict_get (d : dict V) (k : string) : option V :=
  match d with
  | [] => None
  | (k', v) :: r => if String.eqb k' k then Some v else dict_get r k
  end.

(** [k in d] *)
Definition dict_in (k : string) (d : dict V) : bool :=
  match dict_get d k with Some _ => true | None => false end.

(** [d[k] = v] *)
Fixpoint dict_set (d : dict V) (k : string) (v : V) : dict V :=
  match d with
  | [] => [(k, v)]
  | (k', v') :: r =>
      if String.eqb k' k then (k', v) :: r else (k', v') :: dict_set r k v
  end.

(** [d.values()] *)
Definition dict_values (d : dict V) : list V := map snd d.
End Dict.

(** [x in l] for a list of [str]. *)
Definition str_in (x : string) (l : list string) : bool :=
  existsb (String.eqb x) l.

(** ** The pipeline controller *)

(** The argument of [set_processing_steps]: a list of names, or a single
    name (the parser's default is the string ['all']). *)
Inductive step_arg : Type :=
| OneStep (name : string)
| StepList (names : list string).

Section Pipeline.
Variables Unit Step Sink World : Type.

(** Input keys: paths for file-system handlers, records for the
    database handler. *)
Inductive key : Type :=
| PathKey (path : string)
| RecordKey (record : Unit).

Record ContentProcessor : Type := mkContentProcessor {
  input_handler : option (InputHandler Unit);
  processed_content : list Unit;
  pre_processed_content : list Unit;
  available_processing_steps : option (dict Step);
  processing_steps : list Step;
  post_processing_steps : list Sink;
  pre_processing_errors : list exn;
  post_processing_errors : list exn;
  processing_errors : list exn;
  file_counter : Z;
  file_failed_counter : Z;
  doc_counter : Z;
  doc_failed_counter : Z
}.

(** [ContentProcessor.__init__]: the lists are fresh, everything else is
    the class attribute. *)
Definition init : ContentProcessor :=
  mkContentProcessor None [] [] None [] [] [] [] [] 0 0 0 0.

(** Attribute assignments. *)
Definition set_input_handler_attr (h : option (InputHandler Unit)) (c : ContentProcessor) :=
  mkContentProcessor h (processed_content c) (pre_processed_content c)
    (available_processing_steps c) (processing_steps c) (post_processing_steps c)
    (pre_processing_errors c) (post_processing_errors c) (processing_errors c)
    (file_counter c) (file_failed_counter c) (doc_counter c) (doc_failed_counter c).

Definition set_processed_content (q : list Unit) (c : ContentProcessor) :=
  mkContentProcessor (input_handler c) q (pre_processed_content c)
    (available_processing_steps c) (processing_steps c) (post_processing_steps c)
    (pre_processing_errors c) (post_processing_errors c) (processing_errors c)
    (file_counter c) (file_failed_counter c) (doc_counter c) (doc_failed_counter c).

Definition set_pre_processed_content (q : list Unit) (c : ContentProcessor) :=
  mkContentProcessor (input_handler c) (processed_content c) q
    (available_processing_steps c) (processing_steps c) (post_processing_steps c)
    (pre_processing_errors c) (post_processing_errors c) (processing_errors c)
    (file_counter c) (file_failed_counter c) (doc_counter c) (doc_failed_counter c).

Definition set_available_processing_steps (d : option (dict Step)) (c : ContentProcessor) :=
  mkContentProcessor (input_handler c) (processed_content c) (pre_processed_content c)
    d (processing_steps c) (post_processing_steps c)
    (pre_processing_errors c) (post_processing_errors c) (processing_errors c)
    (file_counter c) (file_failed_counter c) (doc_counter c) (doc_failed_counter c).

Definition set_processing_steps_attr (l : list Step) (c : ContentProcessor) :=
  mkContentProcessor (input_handler c) (processed_content c) (pre_processed_content c)
    (available_processing_steps c) l (post_processing_steps c)
    (pre_processing_errors c) (post_processing_errors c) (processing_errors c)
    (file_counter c) (file_failed_counter c) (doc_counter c) (doc_failed_counter c).

Definition set_pre_processing_errors (l : list exn) (c : ContentProcessor) :=
  mkContentProcessor (input_handler c) (processed_content c) (pre_processed_content c)
    (available_processing_steps c) (processing_steps c) (post_processing_steps c)
    l (post_processing_errors c) (processing_errors c)
    (file_counter c) (file_failed_counter c) (doc_counter c) (doc_failed_counter c).

Definition set_post_processing_errors (l : list exn) (c : ContentProcessor) :=
  mkContentProcessor (input_handler c) (processed_content c) (pre_processed_content c)
    (available_processing_steps c) (processing_steps c) (post_processing_steps c)
    (pre_processing_errors c) l (processing_errors c)
    (file_counter c) (file_failed_counter c) (doc_counter c) (doc_failed_counter c).

Definition set_processing_errors (l : list exn) (c : ContentProcessor) :=
  mkContentProcessor (input_handler c) (processed_content c) (pre_processed_content c)
    (available_processing_steps c) (processing_steps c) (post_processing_steps c)
    (pre_processing_errors c) (post_processing_errors c) l
    (file_counter c) (file_failed_counter c) (doc_counter c) (doc_failed_counter c).

(** *** Stateful computations

    A method runs on the controller and on the world outside it (files,
    database, index); it returns or raises, and what it changed before
    raising stays changed. *)
Record state : Type := mkState { cp : ContentProcessor; world : World }.

Definition M (A : Type) : Type := state -> state * result A.

Definition ret {A} (a : A) : M A := fun s => (s, Ok a).
Definition raise {A} (e : exn) : M A := fun s => (s, Raise e).
Definition bind {A B} (m : M A) (k : A -> M B) : M B :=
  fun s => match m s with
           | (s', Ok a) => k a s'
           | (s', Raise e) => (s', Raise e)
           end.
Definition get_cp : M ContentProcessor := fun s => (s, Ok (cp s)).
Definition update (f : ContentProcessor -> ContentProcessor) : M unit :=
  fun s => (mkState (f (cp s)) (world s), Ok tt).

(** [try: body / except ProcessingError as e: handler(e)] *)
Definition try_except {A} (body : M A) (handler : exn -> M A) : M A :=
  fun s => match body s with
           | (s', Raise e) =>
               if is_ProcessingError e then handler e s' else (s', Raise e)
           | r => r
           end.

(** [for x in l: body(x)] *)
Fixpoint for_each {A} (l : list A) (body : A -> M unit) : M unit :=
  match l with
  | [] => ret tt
  | x :: r => bind (body x) (fun _ => for_each r body)
  end.

Notation "x <- c1 ;; c2" := (bind c1 (fun x => c2))
  (at level 61, c1 at next level, right associativity).
Notation "c1 ;; c2" := (bind c1 (fun _ => c2))
  (at level 61, right associativity).

(** A call that touches the world only. *)
Definition lift_world {A} (f : World -> World * result A) : M A :=
  fun s => let (w, r) := f (world s) in (mkState (cp s) w, r).

(** What importing a configured step package gives: nothing, a module
    without [ProcessingStep], one whose [ProcessingStep()] is not a
    [BaseProcessingStep], or a step. *)
Inductive module_desc : Type :=
| NotImportable (e : exn)
| NoProcessingStep
| ForeignProcessingStep
| HasProcessingStep (step : Step).

(** *** Collaborators: steps, sinks, the concrete handler and controller
    classes, the settings *)
Variable step_process : Step -> Unit -> World -> World * result Unit.
Variable sink_process : Sink -> list Unit -> World -> World * result unit.
Variable handle_input :
  InputHandler Unit -> key -> World -> InputHandler Unit * World * result unit.
Variable get_input_db : InputHandler Unit -> World -> result (list key).
Variable world_fs : World -> FS.node.
Variable process_content : M unit.
Variable empty_content : M unit.
Variable PROCESSING_STEPS : list string.   (* settings.PROCESSING_STEPS[model.__name__] *)
Variable import_module : string -> module_desc.

(** *** [set_input_handler] *)

Definition set_input_handler (handler : InputHandler Unit) : M unit :=
  update (set_input_handler_attr (Some handler)).

(** *** [call_processing_steps] *)

Definition append_processing_error (e : exn) : M unit :=
  update (fun c => set_processing_errors (processing_errors c ++ [e]) c).

(** One turn of the loop: the new value of [content]. *)
Definition call_step (step : Step) (content : Unit) : M Unit :=
  try_except (lift_world (step_process step content))
             (fun e => append_processing_error e ;; ret content).

Fixpoint call_steps (steps : list Step) (content : Unit) : M Unit :=
  match steps with
  | [] => ret content
  | step :: rest => content' <- call_step step content ;; call_steps rest content'
  end.

Definition call_processing_steps (content : Unit) : M Unit :=
  c <- get_cp ;; call_steps (processing_steps c) content.

(** *** [get_available_processing_steps] *)

Definition registry (c : ContentProcessor) : dict Step :=
  match available_processing_steps c with Some d => d | None => [] end.

Definition load_step_package (step_package : string) : M unit :=
  match import_module step_package with
  | NotImportable e => raise e
  | NoProcessingStep =>
      raise (ProcessingError (MsgNoProcessingStepClass step_package))
  | ForeignProcessingStep =>
      raise (ProcessingError (MsgNotBaseProcessingStep step_package))
  | HasProcessingStep step_cls =>
      let step_name := last (str_split "."%char step_package) "" in
      update (fun c =>
        set_available_processing_steps
          (Some (dict_set (registry c) step_name step_cls)) c)
  end.

Definition get_available_processing_steps : M (dict Step) :=
  c <- get_cp ;;
  match available_processing_steps c with
  | None =>
      update (set_available_processing_steps (Some [])) ;;
      for_each PROCESSING_STEPS load_step_package
  | Some _ => ret tt
  end ;;
  c <- get_cp ;;
  ret (registry c).

(** *** [set_processing_steps] *)

Definition as_list (step_list : step_arg) : list string :=
  match step_list with
  | OneStep name => [name]
  | StepList names => names
  end.

Definition select_step (step : string) : M unit :=
  c <- get_cp ;;
  match dict_get (registry c) step with
  | Some st =>
      update (fun c => set_processing_steps_attr (processing_steps c ++ [st]) c)
  | None => raise (ProcessingError (MsgStepNotAvailable step))
  end.

(** The value returned is [None] or, for ['all'], the registry's values. *)
Definition set_processing_steps (step_list : step_arg) : M (option (list Step)) :=
  update (set_processing_steps_attr []) ;;
  _ <- get_available_processing_steps ;;
  let step_list := as_list step_list in
  if str_in "all" step_list then
    c <- get_cp ;;
    ret (Some (dict_values (registry c)))
  else
    for_each step_list select_step ;;
    ret None.

(** *** [process] *)

(** [self.input_handler.<attr>]: the handler whose attribute [attr] is
    read or assigned; on [None] either fails with [AttributeError]. *)
Definition the_input_handler (attr : string) : M (InputHandler Unit) :=
  c <- get_cp ;;
  match input_handler c with
  | Some h => ret h
  | None =>
      raise (AttributeError
               ("'NoneType' object has no attribute '" ++ attr ++ "'")%string)
  end.

Definition result_map {A B} (f : A -> B) (r : result A) : result B :=
  match r with Ok a => Ok (f a) | Raise e => Raise e end.

(** [self.input_handler.get_input()], by the class of the handler; it
    reads the world and changes nothing. *)
Definition input_keys (h : InputHandler Unit) (w : World) : result (list key) :=
  match handler_class h with
  | HandlerFS =>
      result_map (map PathKey) (InputHandlerFS.get_input (world_fs w) h)
  | HandlerDB => get_input_db h w
  end.

Definition get_input (h : InputHandler Unit) : M (list key) :=
  fun s => (s, input_keys h (world s)).

(** [self.input_handler.handle_input(input_content)] *)
Definition call_handle_input (input_content : key) : M unit :=
  h <- the_input_handler "handle_input" ;;
  fun s =>
    match handle_input h input_content (world s) with
    | (h', w, r) => (mkState (set_input_handler_attr (Some h') (cp s)) w, r)
    end.

Definition append_pre_processing_error (e : exn) : M unit :=
  update (fun c => set_pre_processing_errors (pre_processing_errors c ++ [e]) c).

Definition append_post_processing_error (e : exn) : M unit :=
  update (fun c => set_post_processing_errors (post_processing_errors c ++ [e]) c).

(** One turn of the input loop. *)
Definition pre_process_one (input_content : key) : M unit :=
  try_except (call_handle_input input_content) append_pre_processing_error.

(** One turn of the post-processing loop. *)
Definition post_process_one (step : Sink) : M unit :=
  try_except (c <- get_cp ;; lift_world (sink_process step (processed_content c)))
             append_post_processing_error.

(** The two queue resets that open [process]. *)
Definition reset_queues : M unit :=
  update (set_pre_processed_content []) ;;
  update (set_processed_content []).

(** The input loop.  The controller's queue and the handler's are one
    list object once the loop is over; the controller changes neither of
    them afterwards, so a copy stands for the alias. *)
Definition pre_process : M unit :=
  h <- the_input_handler "pre_processed_content" ;;
  update (set_input_handler_attr (Some (with_handler_queue h []))) ;;
  h <- the_input_handler "get_input" ;;
  keys <- get_input h ;;
  for_each keys pre_process_one ;;
  h <- the_input_handler "pre_processed_content" ;;
  update (set_pre_processed_content (handler_queue h)).

(** The post-processing loop. *)
Definition post_process : M unit :=
  c <- get_cp ;;
  for_each (post_processing_steps c) post_process_one.

Definition process : M unit :=
  reset_queues ;;
  pre_process ;;
  process_content ;;
  post_process.

(** ** The management command [process_cases] *)

Record options : Type := mkOptions {
  opt_verbose : bool;
  opt_step : step_arg;
  opt_input : selector;
  opt_input_handler : string;
  opt_limit : Z;
  opt_start : Z;
  opt_max_lines : Z;
  opt_source : string;
  opt_empty : bool
}.

(** [set_options] sets the level of the module's logger when [verbose]
    is given, and [log_stats] writes the counters and the sizes of the
    error lists to the log and lets the sinks log theirs.  The log is not
    part of the state modelled here, so both leave it as it is; nothing
    below speaks of the log or of [verbose]. *)
Definition set_options (o : options) : M unit := ret tt.
Definition log_stats : M unit := ret tt.

Definition make_handler (o : options) : M (InputHandler Unit) :=
  if String.eqb (opt_input_handler o) "fs" then
    if String.eqb (opt_source o) "serializer" then
      ret (new_handler Unit HandlerFS (opt_limit o) (opt_start o) (opt_input o))
    else raise (ValueError "Mode not supported. Use openjur or serializer.")
  else if String.eqb (opt_input_handler o) "db" then
    ret (new_handler Unit HandlerDB (opt_limit o) (opt_start o) SelNone)
  else raise (ValueError ("Unsupported input handler: " ++ opt_input_handler o)%string).

Definition handle (o : options) : M unit :=
  set_options o ;;
  handler <- make_handler o ;;
  set_input_handler handler ;;
  _ <- set_processing_steps (opt_step o) ;;
  (if opt_empty o then empty_content else ret tt) ;;
  process ;;
  log_stats.
End Pipeline.

Arguments key : clear implicits.
Arguments NotImportable {Step} _.
Arguments NoProcessingStep {Step}.
Arguments ForeignProcessingStep {Step}.
Arguments PathKey {Unit} _.
Arguments RecordKey {Unit} _.
Arguments ret {Unit Step Sink World A} _ _.
Arguments raise {Unit Step Sink World A} _ _.
Arguments get_cp {Unit Step Sink World} _.
Arguments init {Unit Step Sink}.
Arguments reset_queues {Unit Step Sink World} _.

(** ** A concrete pipeline

    Units are texts, steps and sinks are known by name, and the world is a
    file tree with a journal of the calls made to the collaborators. *)

Module Demo.

Inductive event : Type :=
| Handled (k : key string)
| Stepped (step : string) (content : string)
| Sunk (sink : string) (batch : list string).

Record World : Type := mkWorld { files : FS.node; journal : list event }.

Definition record_event (ev : event) (w : World) : World :=
  mkWorld (files w) (journal w ++ [ev]).

(** A step appends its name to the text; the step [broken] fails. *)
Definition step_process (step content : string) (w : World)
  : World * result string :=
  (record_event (Stepped step content) w,
   if String.eqb step "broken" then Raise (ProcessingError (MsgText "step failed"))
   else Ok (content ++ "+" ++ step)%string).

(** A sink fails when its name is [bad]. *)
Definition sink_process (sink : string) (batch : list string) (w : World)
  : World * result unit :=
  (record_event (Sunk sink batch) w,
   if String.eqb sink "bad" then Raise (ProcessingError (MsgText "sink failed"))
   else Ok tt).

(** A path is turned into a unit, its own text, unless it is
    [d/b.json], which cannot be parsed; a record is taken as it is. *)
Definition parse (k : key string) : string + message :=
  match k with
  | PathKey p =>
      if String.eqb p "d/b.json" then inr (MsgText "cannot parse") else inl p
  | RecordKey u => inl u
  end.

Definition handle_input (h : InputHandler string) (k : key string) (w : World)
  : InputHandler string * World * result unit :=
  match parse k with
  | inl u => (with_handler_queue h (handler_queue h ++ [u]),
              record_event (Handled k) w, Ok tt)
  | inr m => (h, record_event (Handled k) w, Raise (ProcessingError m))
  end.

Definition get_input_db (h : InputHandler string) (w : World)
  : result (list (key string)) := Ok [].

Definition M := M string string string World.

(** Modelled from the spec: [process_content] of the concrete controller
    (the class [CaseProcessor] is not among the sources).  For each unit
    of the pre-processed queue, in order, the selected steps are applied
    and the unit is appended to the processed queue. *)
Definition process_one (content : string) : M unit :=
  bind (call_processing_steps step_process content)
       (fun content' =>
          update (fun c => set_processed_content (processed_content c ++ [content']) c)).

Definition process_content : M unit :=
  bind (get_cp (World := World))
       (fun c => for_each (pre_processed_content c) process_one).

Definition empty_content : M unit := ret tt.

Definition PROCESSING_STEPS : list string :=
  [ "oldp.apps.cases.processing.processing_steps.assign_court";
    "oldp.apps.cases.processing.processing_steps.broken";
    "oldp.apps.cases.processing.processing_steps.extract_refs" ].

Definition import_module (pkg : string) : module_desc string :=
  HasProcessingStep (last (str_split "."%char pkg) "").

Definition set_processing_steps (step_list : step_arg) : M (option (list string)) :=
  set_processing_steps PROCESSING_STEPS import_module step_list.
Definition process : M unit :=
  process sink_process handle_input get_input_db files process_content.
Definition handle (o : options) : M unit :=
  handle sink_process handle_input get_input_db files process_content
         empty_content PROCESSING_STEPS import_module o.

Definition world0 : World := mkWorld fs_example [].
Definition state0 : state string string string World := mkState init world0.

Definition registry0 : dict string :=
  [ ("assign_court", "assign_court"); ("broken", "broken");
    ("extract_refs", "extract_refs") ].

(** A controller that is configured: handler on the directory [d], two
    sinks, registry loaded. *)
Definition configured (steps : list string) (sinks : list string)
  : state string string string World :=
  mkState
    (mkContentProcessor
       (Some (new_handler string HandlerFS 20 0 (SelStr "d")))
       [] [] (Some registry0) steps sinks [] [] [] 0 0 0 0)
    world0.

Definition run_state : state string string string World :=
  configured ["extract_refs"; "broken"; "assign_court"] ["s1"; "bad"; "s2"].


(** The options of [process_cases --input d STEP...]. *)
Definition opts (steps : list string) : options :=
  mkOptions false (StepList steps) (SelStr "d") "fs" 20 0 (-1) "serializer" false.

End Demo.

(** * Properties *)

(** ** Slices and sorting *)

Module PySeqFacts.
Import PySeq.

Section SliceFacts.
Context {A : Type}.
Implicit Types l : list A.

Lemma clamp_nonneg (n : nat) (i : Z) :
  0 <= i -> clamp n i = Nat.min n (Z.to_nat i).
Proof.
  intros Hi. unfold clamp.
  destruct (Z.ltb_spec i 0); [lia | reflexivity].
Qed.

Lemma clamp_le (n : nat) (i : Z) : (clamp n i <= n)%nat.
Proof.
  unfold clamp. destruct (Z.ltb_spec i 0); lia.
Qed.

Lemma len_slice_from l (start : Z) :
  0 <= start -> len (slice_from l start) = Z.max 0 (len l - start).
Proof.
  intros Hs. unfold len, slice_from.
  rewrite length_skipn, clamp_nonneg by assumption. lia.
Qed.

Lemma slice_from_nil_iff l (start : Z) :
  0 <= start -> (slice_from l start = [] <-> len l <= start).
Proof.
  intros Hs. rewrite <- length_zero_iff_nil.
  pose proof (len_slice_from l Hs) as H. unfold len in *. lia.
Qed.

(** Cutting [limit > 0] items off [l[start:]] is the slice
    [l[start:start+limit]] when [start] is not negative. *)
Lemma slice_to_slice_from l (start limit : Z) :
  0 <= start -> 0 < limit ->
  slice_to (slice_from l start) limit = slice l start (start + limit).
Proof.
  intros Hs Hl. unfold slice_to, slice, slice_from.
  rewrite length_skipn.
  rewrite !clamp_nonneg by lia.
  f_equal. lia.
Qed.

Lemma len_slice_to l (limit : Z) :
  0 < limit -> len (slice_to l limit) = Z.min limit (len l).
Proof.
  intros Hl. unfold len, slice_to.
  rewrite length_firstn, clamp_nonneg by lia. lia.
Qed.
End SliceFacts.

Definition str_le (x y : string) : Prop := String.leb x y = true.

Lemma insert_sorted_perm (x : string) (l : list string) :
  Permutation (x :: l) (insert_sorted x l).
Proof.
  induction l as [|y r IH]; simpl.
  - apply Permutation_refl.
  - destruct (String.leb x y).
    + apply Permutation_refl.
    + eapply perm_trans; [apply perm_swap |].
      apply perm_skip. exact IH.
Qed.

Lemma sorted_perm (l : list string) : Permutation l (sorted l).
Proof.
  induction l as [|x r IH]; simpl.
  - constructor.
  - eapply perm_trans; [apply perm_skip; exact IH |].
    apply insert_sorted_perm.
Qed.

Lemma insert_sorted_hd (x a : string) (l : list string) :
  str_le a x -> HdRel str_le a l -> HdRel str_le a (insert_sorted x l).
Proof.
  intros Hax Hal. destruct l as [|y r]; simpl.
  - constructor. exact Hax.
  - destruct (String.leb x y); constructor.
    + exact Hax.
    + inversion Hal; assumption.
Qed.

Lemma insert_sorted_Sorted (x : string) (l : list string) :
  Sorted str_le l -> Sorted str_le (insert_sorted x l).
Proof.
  induction 1 as [|y r Hr IH Hy]; simpl.
  - repeat constructor.
  - destruct (String.leb x y) eqn:E.
    + constructor; [constructor; assumption | constructor; exact E].
    + constructor; [exact IH |].
      apply insert_sorted_hd; [| exact Hy].
      destruct (String.leb_total x y) as [H|H]; [congruence | exact H].
Qed.

Lemma sorted_Sorted (l : list string) : Sorted str_le (sorted l).
Proof.
  induction l as [|x r IH]; simpl.
  - constructor.
  - apply insert_sorted_Sorted. exact IH.
Qed.
End PySeqFacts.

(** ** The file-system input handler *)

Module InputHandlerFSFacts.
Import PySeq PySeqFacts InputHandlerFS.

(** The resolution of a list is the concatenation of the resolutions of
    its elements, in the order of the list. *)
Lemma selector_list_concat (fs : FS.node) (l1 l2 : list selector) :
  get_input_content_from_selector fs (SelList (l1 ++ l2)) =
  get_input_content_from_selector fs (SelList l1) ++
  get_input_content_from_selector fs (SelList l2).
Proof.
  simpl. apply flat_map_app.
Qed.

Lemma selector_list_cons (fs : FS.node) (x : selector) (l : list selector) :
  get_input_content_from_selector fs (SelList (x :: l)) =
  get_input_content_from_selector fs x ++
  get_input_content_from_selector fs (SelList l).
Proof. reflexivity. Qed.

(** A path that names a file and no directory is its own single key. *)
Lemma selector_file_as_is (fs : FS.node) (s : string) :
  FS.isdir fs s = false -> FS.isfile fs s = true ->
  get_input_content_from_selector fs (SelStr s) = [s].
Proof.
  intros Hd Hf. simpl. rewrite Hd, Hf. reflexivity.
Qed.

(** The keys of a directory are what the pattern matches, in order. *)
Lemma selector_directory_sorted (fs : FS.node) (s : string) :
  FS.isdir fs s = true ->
  let keys := get_input_content_from_selector fs (SelStr s) in
  Sorted str_le keys /\ Permutation (FS.glob fs (s ++ dir_selector)) keys.
Proof.
  intros Hd. simpl. rewrite Hd. split.
  - apply sorted_Sorted.
  - apply sorted_perm.
Qed.

(** A selector that cannot match: a string that names no file and no
    directory, or a value that is neither a string nor a list (a tuple
    is such a value). *)
Definition matches_nothing (fs : FS.node) (sel : selector) : bool :=
  match sel with
  | SelStr s => negb (FS.isdir fs s) && negb (FS.isfile fs s)
  | SelList _ => false
  | SelNone | SelTuple _ | SelOther => true
  end.

(** The slice the specification describes: [[start : start+limit]], a
    limit that is not positive meaning no upper bound. *)
Definition spec_slice (l : list string) (start limit : Z) : list string :=
  if limit >? 0 then slice l start (start + limit) else slice_from l start.

(** [get_input] as the specification words it. *)
Definition get_input_spec {Unit} (fs : FS.node) (h : InputHandler Unit)
  : result (list string) :=
  match input_selector h with
  | SelNone => Raise (ProcessingError MsgSelectorNotSet)
  | sel =>
      match spec_slice (get_input_content_from_selector fs sel)
                       (input_start h) (input_limit h) with
      | [] => Raise (ProcessingError (MsgSelectorEmpty sel))
      | keys => Ok keys
      end
  end.

Lemma spec_slice_code (l : list string) (start limit : Z) :
  0 <= start ->
  spec_slice l start limit =
  if limit >? 0 then slice_to (slice_from l start) limit else slice_from l start.
Proof.
  intros Hs. unfold spec_slice.
  destruct (Z.gtb_spec limit 0); [| reflexivity].
  symmetry. apply slice_to_slice_from; lia.
Qed.

Lemma slice_to_nil_iff (l : list string) (limit : Z) :
  0 < limit -> (slice_to l limit = [] <-> l = []).
Proof.
  intros Hl. rewrite <- !length_zero_iff_nil.
  pose proof (len_slice_to l Hl) as H. unfold len in H. lia.
Qed.

Lemma empty_input_error_eq (sel : selector) :
  is_tuple sel = false ->
  empty_input_error sel = ProcessingError (MsgSelectorEmpty sel).
Proof.
  destruct sel; simpl; intros H; try reflexivity. discriminate H.
Qed.

Lemma get_input_refines_spec {Unit} (fs : FS.node) (h : InputHandler Unit) :
  0 <= input_start h -> is_tuple (input_selector h) = false ->
  get_input fs h = get_input_spec fs h.
Proof.
  intros Hs Ht. unfold get_input, get_input_spec.
  set (resolved := get_input_content_from_selector fs).
  assert (Hgen : forall sel, is_tuple sel = false ->
    (if len (slice_from (resolved sel) (input_start h)) <? 1
     then Raise (empty_input_error sel)
     else if input_limit h >? 0
          then Ok (slice_to (slice_from (resolved sel) (input_start h)) (input_limit h))
          else Ok (slice_from (resolved sel) (input_start h))) =
    match spec_slice (resolved sel) (input_start h) (input_limit h) with
    | [] => Raise (ProcessingError (MsgSelectorEmpty sel))
    | keys => Ok keys
    end).
  { intros sel Hsel. rewrite (empty_input_error_eq _ Hsel).
    rewrite spec_slice_code by assumption.
    set (tail := slice_from (resolved sel) (input_start h)).
    destruct (Z.ltb_spec (len tail) 1) as [Hlt|Hge].
    - assert (tail = []) as -> by (apply length_zero_iff_nil; unfold len in Hlt; lia).
      destruct (input_limit h >? 0); [unfold slice_to; rewrite firstn_nil |]; reflexivity.
    - destruct (Z.gtb_spec (input_limit h) 0) as [Hl|Hl].
      + destruct (slice_to tail (input_limit h)) eqn:E; [| reflexivity].
        apply slice_to_nil_iff in E; [| lia].
        rewrite E in Hge. unfold len in Hge. simpl in Hge. lia.
      + destruct tail; [unfold len in Hge; simpl in Hge; lia | reflexivity]. }
  destruct (input_selector h); try reflexivity; try discriminate Ht;
    apply Hgen; reflexivity.
Qed.

(** C3, as amended: when the offset is not negative and the selector is
    no tuple, [get_input] fails with the unset-selector error when the
    selector is [None], with the empty-input error when the resolved
    list, cut by offset and limit, has no entry, and otherwise returns
    the resolved list sliced by [[start : start+limit]], of length
    [min(limit, total - start)] when [limit > 0] and [total - start]
    otherwise.  With a negative offset Python counts from the end of the
    list and the slice is another one; for a tuple the formatting of the
    message of the empty-input error decides what is raised, see
    [empty_input_error]. *)
Theorem C3_get_input_slice_and_errors :
  forall (Unit : Type) (fs : FS.node) (h : InputHandler Unit),
    0 <= input_start h ->
    is_tuple (input_selector h) = false ->
    let resolved := get_input_content_from_selector fs (input_selector h) in
    let sliced := spec_slice resolved (input_start h) (input_limit h) in
    (input_selector h = SelNone ->
       get_input fs h = Raise (ProcessingError MsgSelectorNotSet)) /\
    (input_selector h <> SelNone -> sliced = [] ->
       get_input fs h = Raise (ProcessingError (MsgSelectorEmpty (input_selector h)))) /\
    (input_selector h <> SelNone -> sliced <> [] ->
       get_input fs h = Ok sliced /\
       len sliced = if input_limit h >? 0
                    then Z.min (input_limit h) (len resolved - input_start h)
                    else len resolved - input_start h).
Proof.
  intros Unit fs h Hs Ht. cbv zeta.
  rewrite (get_input_refines_spec fs h Hs Ht). clear Ht.
  assert (Hset : input_selector h <> SelNone ->
    get_input_spec fs h =
    match spec_slice (get_input_content_from_selector fs (input_selector h))
                     (input_start h) (input_limit h) with
    | [] => Raise (ProcessingError (MsgSelectorEmpty (input_selector h)))
    | keys => Ok keys
    end).
  { unfold get_input_spec. destruct (input_selector h); congruence. }
  assert (Hunset : input_selector h = SelNone ->
    get_input_spec fs h = Raise (ProcessingError MsgSelectorNotSet)).
  { unfold get_input_spec. intros ->. reflexivity. }
  revert Hset Hunset.
  generalize (get_input_spec fs h).
  generalize (get_input_content_from_selector fs (input_selector h)).
  intros resolved outcome Hset Hunset.
  remember (spec_slice resolved (input_start h) (input_limit h)) as sliced eqn:Esl.
  split; [| split].
  - exact Hunset.
  - intros Hsel Hnil. rewrite (Hset Hsel), Hnil. reflexivity.
  - intros Hsel Hne. split.
    + rewrite (Hset Hsel). destruct sliced; [congruence | reflexivity].
    + subst sliced. rewrite spec_slice_code in * by assumption.
      destruct (Z.gtb_spec (input_limit h) 0) as [Hl|Hl].
      * rewrite len_slice_to by lia.
        rewrite len_slice_from by assumption.
        assert (slice_from resolved (input_start h) <> []) as Hne'.
        { intros E. apply Hne. apply slice_to_nil_iff; [lia | exact E]. }
        rewrite slice_from_nil_iff in Hne' by assumption. lia.
      * rewrite len_slice_from by assumption.
        rewrite slice_from_nil_iff in Hne by assumption. lia.
Qed.

Lemma C3_witness :
  get_input fs_example (new_handler nat HandlerFS 2 1 (SelStr "d"))
    = Ok ["d/b.json"; "d/sub"]
  /\ len ["d/b.json"; "d/sub"] = Z.min 2 (3 - 1).
Proof.
  pose proof (@C3_get_input_slice_and_errors nat fs_example
                (new_handler nat HandlerFS 2 1 (SelStr "d"))) as H.
  simpl in H. specialize (H ltac:(lia) eq_refl).
  destruct H as (_ & _ & H).
  specialize (H ltac:(discriminate) ltac:(vm_compute; discriminate)).
  exact H.
Defined.

(** With a negative offset Python counts from the end of the list; the
    length formula of the specification is then off. *)
Example get_input_negative_start :
  get_input fs_example (new_handler nat HandlerFS 0 (-1) (SelStr "d"))
    = Ok ["d/sub"].
Proof. reflexivity. Qed.

(** C3 as written fails for a negative offset.  The directory [d] of
    [fs_example] resolves to three keys; with [start = -1] and
    [limit = 2] the slice [[start : start+limit]] of the claim is
    [[-1 : 1]], which is empty, so the claim has [get_input] raise the
    empty-input error, and its length formula gives [min(2, 3 - (-1))],
    which is 2.  The code cuts [[-1:]] first and then [[:2]]: it returns
    the one key [d/sub]. *)
Lemma C3_counterexample :
  let h := new_handler nat HandlerFS 2 (-1) (SelStr "d") in
  let resolved := get_input_content_from_selector fs_example (input_selector h) in
  resolved = ["d/a.json"; "d/b.json"; "d/sub"] /\
  spec_slice resolved (input_start h) (input_limit h) = [] /\
  get_input_spec fs_example h =
    Raise (ProcessingError (MsgSelectorEmpty (SelStr "d"))) /\
  get_input fs_example h = Ok ["d/sub"] /\
  get_input fs_example h <> get_input_spec fs_example h /\
  len ["d/sub"] <> Z.min (input_limit h) (len resolved - input_start h).
Proof.
  cbv zeta.
  repeat split; try reflexivity; try discriminate.
Qed.

(** A tuple resolves to nothing, and the message of the empty-input error
    is then formatted with the tuple as the arguments of [%]: a pair makes
    the formatting fail, a 1-tuple gives the error with its item. *)
Example get_input_tuple_selector :
  get_input fs_example
    (new_handler nat HandlerFS 0 0 (SelTuple [SelStr "d"; SelStr "top.json"]))
    = Raise (TypeError "not all arguments converted during string formatting")
  /\
  get_input fs_example (new_handler nat HandlerFS 0 0 (SelTuple [SelStr "d"]))
    = Raise (ProcessingError (MsgSelectorEmpty (SelStr "d"))).
Proof. split; reflexivity. Qed.

(** C5: the keys of a directory are its own entries only.  In
    [fs_example] the directory [d] holds the file [d/sub/c.json] one
    level down; the keys of [d] are its two visible files and the
    directory [d/sub] itself, in sorted order, and the file below
    [d/sub] is not among them. *)
Theorem C5_directory_not_expanded_recursively :
  FS.isdir fs_example "d" = true /\
  FS.isfile fs_example "d/sub/c.json" = true /\
  get_input_content_from_selector fs_example (SelStr "d")
    = ["d/a.json"; "d/b.json"; "d/sub"] /\
  ~ In "d/sub/c.json" (get_input_content_from_selector fs_example (SelStr "d")) /\
  FS.isfile fs_example "d/sub" = false.
Proof.
  repeat split; try reflexivity.
  simpl. intros [H|[H|[H|[]]]]; discriminate H.
Qed.

(** C10: a selector that cannot match resolves to the empty list, and
    inside a list selector it adds no key: the list resolves as it does
    without that element.  The resolution is a plain function of the
    file system and the selector; it has no error list to write to. *)
Theorem C10_unmatched_selector_resolves_to_nothing :
  forall (fs : FS.node) (sel : selector),
    matches_nothing fs sel = true ->
    get_input_content_from_selector fs sel = [] /\
    forall before after : list selector,
      get_input_content_from_selector fs (SelList (before ++ sel :: after)) =
      get_input_content_from_selector fs (SelList (before ++ after)).
Proof.
  intros fs sel Hm.
  assert (Hnil : get_input_content_from_selector fs sel = []).
  { destruct sel as [|s|l|t|]; simpl in *; try reflexivity; try discriminate.
    apply andb_true_iff in Hm. destruct Hm as [Hd Hf].
    apply negb_true_iff in Hd. apply negb_true_iff in Hf.
    rewrite Hd, Hf. reflexivity. }
  split; [exact Hnil |].
  intros before after.
  rewrite !selector_list_concat, selector_list_cons, Hnil. reflexivity.
Qed.

Lemma C10_witness :
  get_input_content_from_selector fs_example (SelStr "missing") = [] /\
  get_input_content_from_selector fs_example
    (SelList [SelStr "top.json"; SelStr "missing"; SelStr "d"])
  = ["top.json"; "d/a.json"; "d/b.json"; "d/sub"].
Proof.
  destruct (@C10_unmatched_selector_resolves_to_nothing fs_example
              (SelStr "missing") eq_refl) as [Hnil Hlist].
  split; [exact Hnil |].
  exact (Hlist [SelStr "top.json"] [SelStr "d"]).
Defined.
End InputHandlerFSFacts.

(** ** The controller *)

Section PipelineFacts.
Variables Unit Step Sink World : Type.

Notation M := (M Unit Step Sink World).
Notation state := (state Unit Step Sink World).
Notation ContentProcessor := (ContentProcessor Unit Step Sink).

Implicit Types (s : state) (c : ContentProcessor).

(** *** Sequencing *)

Lemma bind_ok {A B} (m : M A) (k : A -> M B) s s' (a : A) :
  m s = (s', Ok a) -> bind m k s = k a s'.
Proof. intros H. unfold bind. rewrite H. reflexivity. Qed.

Lemma bind_raise {A B} (m : M A) (k : A -> M B) s s' (e : exn) :
  m s = (s', Raise e) -> bind m k s = (s', Raise e).
Proof. intros H. unfold bind. rewrite H. reflexivity. Qed.

Lemma for_each_app {A} (l1 l2 : list A) (body : A -> M unit) s :
  for_each (l1 ++ l2) body s =
  bind (for_each l1 body) (fun _ => for_each l2 body) s.
Proof.
  revert s. induction l1 as [|x r IH]; intros s; simpl.
  - reflexivity.
  - unfold bind in *. destruct (body x s) as [s1 [[]|e]].
    + apply IH.
    + reflexivity.
Qed.

Lemma state_eta s : mkState (cp s) (world s) = s.
Proof. destruct s. reflexivity. Qed.

(** Error lists only grow: [l'] is [l] with entries added at the end. *)
Definition extends {A} (l l' : list A) : Prop := exists more, l' = l ++ more.

Lemma extends_refl {A} (l : list A) : extends l l.
Proof. exists []. symmetry. apply app_nil_r. Qed.

Lemma extends_trans {A} (l1 l2 l3 : list A) :
  extends l1 l2 -> extends l2 l3 -> extends l1 l3.
Proof.
  intros [m1 ->] [m2 ->]. exists (m1 ++ m2). symmetry. apply app_assoc.
Qed.

Lemma extends_app {A} (l more : list A) : extends l (l ++ more).
Proof. exists more. reflexivity. Qed.

(** *** Applying the selected steps *)

Section Steps.
Variable step_process : Step -> Unit -> World -> World * result Unit.

Notation call_step := (call_step (Sink := Sink) step_process).
Notation call_steps := (call_steps (Sink := Sink) step_process).
Notation call_processing_steps := (call_processing_steps (Sink := Sink) step_process).

Definition record_processing_error (e : exn) s (w : World) : state :=
  mkState (set_processing_errors (processing_errors (cp s) ++ [e]) (cp s)) w.

Lemma call_step_returns (step : Step) (u u' : Unit) s (w : World) :
  step_process step u (world s) = (w, Ok u') ->
  call_step step u s = (mkState (cp s) w, Ok u').
Proof.
  intros H. unfold call_step, try_except, lift_world.
  rewrite H. reflexivity.
Qed.

Lemma call_step_caught (step : Step) (u : Unit) s (w : World) (m : message) :
  step_process step u (world s) = (w, Raise (ProcessingError m)) ->
  call_step step u s = (record_processing_error (ProcessingError m) s w, Ok u).
Proof.
  intros H. unfold call_step, try_except, lift_world.
  rewrite H. reflexivity.
Qed.

Lemma call_step_propagates (step : Step) (u : Unit) s (w : World) (e : exn) :
  step_process step u (world s) = (w, Raise e) ->
  is_ProcessingError e = false ->
  call_step step u s = (mkState (cp s) w, Raise e).
Proof.
  intros H He. unfold call_step, try_except, lift_world.
  rewrite H. simpl. rewrite He. reflexivity.
Qed.

Lemma call_steps_app (l1 l2 : list Step) (u : Unit) s :
  call_steps (l1 ++ l2) u s = bind (call_steps l1 u) (call_steps l2) s.
Proof.
  revert u s. induction l1 as [|x r IH]; intros u s; simpl.
  - reflexivity.
  - unfold bind in *. destruct (call_step x u s) as [s1 [u1|e]].
    + apply IH.
    + reflexivity.
Qed.

(** The loop at a step [step] that comes after the steps [before]. *)
Lemma call_steps_at (before after : list Step) (step : Step)
      (u u_i : Unit) s s_i :
  call_steps before u s = (s_i, Ok u_i) ->
  call_steps (before ++ step :: after) u s =
  bind (call_step step u_i) (call_steps after) s_i.
Proof.
  intros Hb. rewrite call_steps_app.
  rewrite (@bind_ok _ _ _ _ s s_i u_i Hb). reflexivity.
Qed.

(** A call to [call_processing_steps] changes the controller in its
    list of processing errors only, and that list grows. *)
Definition same_but_processing_errors c c' : Prop :=
  exists errs, c' = set_processing_errors errs c /\
               extends (processing_errors c) errs.

Lemma call_steps_frame (steps : list Step) (u : Unit) s :
  same_but_processing_errors (cp s) (cp (fst (call_steps steps u s))).
Proof.
  revert u s. induction steps as [|x r IH]; intros u s; simpl.
  - exists (processing_errors (cp s)). split; [| apply extends_refl].
    destruct (cp s); reflexivity.
  - unfold bind, call_step, try_except, lift_world.
    destruct (step_process x u (world s)) as [w [u'|e]]; simpl.
    + apply (IH u' (mkState (cp s) w)).
    + destruct (is_ProcessingError e); simpl.
      * destruct (IH u (mkState (set_processing_errors (processing_errors (cp s) ++ [e]) (cp s)) w))
          as (errs & Heq & Hext).
        exists errs. simpl in *. split.
        -- rewrite Heq. destruct (cp s); reflexivity.
        -- eapply extends_trans; [apply extends_app | exact Hext].
      * exists (processing_errors (cp s)). split; [| apply extends_refl].
        destruct (cp s); reflexivity.
Qed.
End Steps.

(** *** The registry and the selection of steps *)

Section Registry.
Variable PROCESSING_STEPS : list string.
Variable import_module : string -> module_desc Step.

Notation load_step_package :=
  (@load_step_package Unit Step Sink World import_module).
Notation get_available_processing_steps :=
  (@get_available_processing_steps Unit Step Sink World PROCESSING_STEPS import_module).
Notation select_step := (@select_step Unit Step Sink World).
Notation set_processing_steps :=
  (@set_processing_steps Unit Step Sink World PROCESSING_STEPS import_module).

(** The dictionary the loading loop builds from [d], and how the loop
    ends. *)
Fixpoint load_all (pkgs : list string) (d : dict Step) : dict Step * result unit :=
  match pkgs with
  | [] => (d, Ok tt)
  | pkg :: rest =>
      match import_module pkg with
      | NotImportable e => (d, Raise e)
      | NoProcessingStep => (d, Raise (ProcessingError (MsgNoProcessingStepClass pkg)))
      | ForeignProcessingStep => (d, Raise (ProcessingError (MsgNotBaseProcessingStep pkg)))
      | HasProcessingStep st =>
          load_all rest (dict_set d (last (str_split "."%char pkg) "") st)
      end
  end.

(** The registry after a call of [get_available_processing_steps], and
    what the call returns, from the registry attribute before it. *)
Definition registry_after (a : option (dict Step)) : dict Step * result (dict Step) :=
  match a with
  | Some d => (d, Ok d)
  | None =>
      let (d, r) := load_all PROCESSING_STEPS [] in
      (d, match r with Ok _ => Ok d | Raise e => Raise e end)
  end.

Lemma for_each_load (pkgs : list string) s (d : dict Step) :
  available_processing_steps (cp s) = Some d ->
  for_each pkgs load_step_package s =
  let (d', r) := load_all pkgs d in
  (mkState (set_available_processing_steps (Some d') (cp s)) (world s), r).
Proof.
  revert s d. induction pkgs as [|pkg rest IH]; intros s d Hd; simpl.
  - destruct s as [c w]; destruct c; simpl in *; subst; reflexivity.
  - unfold bind, load_step_package.
    destruct (import_module pkg) as [e| | |st]; simpl;
      try (destruct s as [c w]; destruct c; simpl in *; subst; reflexivity).
    unfold update, registry; simpl. rewrite Hd.
    rewrite (IH _ (dict_set d (last (str_split "."%char pkg) "") st)) by reflexivity.
    simpl. destruct (load_all rest _) as [d' r]. reflexivity.
Qed.

Lemma get_available_processing_steps_eq s :
  get_available_processing_steps s =
  let (d, r) := registry_after (available_processing_steps (cp s)) in
  (mkState (set_available_processing_steps (Some d) (cp s)) (world s), r).
Proof.
  unfold get_available_processing_steps, registry_after, bind, get_cp.
  destruct (available_processing_steps (cp s)) as [d|] eqn:Ha.
  - simpl. unfold registry. rewrite Ha.
    destruct s as [c w]; destruct c; simpl in *; subst; reflexivity.
  - unfold update at 1. simpl.
    rewrite (@for_each_load PROCESSING_STEPS _ []) by reflexivity.
    simpl. destruct (load_all PROCESSING_STEPS []) as [d' [[]|e]]; reflexivity.
Qed.

(** The selection loop when every name is known: the steps are added
    in the order of the names. *)
Lemma for_each_select_known (names : list string) (steps : list Step)
      (reg : dict Step) s :
  available_processing_steps (cp s) = Some reg ->
  map (dict_get reg) names = map Some steps ->
  for_each names select_step s =
  (mkState (set_processing_steps_attr (processing_steps (cp s) ++ steps) (cp s))
           (world s), Ok tt).
Proof.
  revert steps s. induction names as [|n rest IH]; intros steps s Ha Hmap.
  - destruct steps; [| discriminate]. simpl. rewrite app_nil_r.
    destruct s as [c w]; destruct c; reflexivity.
  - destruct steps as [|st steps]; [discriminate |].
    simpl in Hmap. injection Hmap as Hn Hrest.
    simpl. unfold bind at 1. unfold select_step, bind, get_cp.
    unfold registry. rewrite Ha, Hn. unfold update at 1.
    rewrite (IH steps) by (simpl; assumption).
    simpl. rewrite <- app_assoc. reflexivity.
Qed.

(** The selection loop at the first name that is not registered. *)
Lemma for_each_select_unknown (known rest : list string) (unknown : string)
      (steps : list Step) (reg : dict Step) s :
  available_processing_steps (cp s) = Some reg ->
  map (dict_get reg) known = map Some steps ->
  dict_get reg unknown = None ->
  for_each (known ++ unknown :: rest) select_step s =
  (mkState (set_processing_steps_attr (processing_steps (cp s) ++ steps) (cp s))
           (world s),
   Raise (ProcessingError (MsgStepNotAvailable unknown))).
Proof.
  intros Ha Hmap Hun. rewrite for_each_app.
  rewrite (@bind_ok _ _ _ _ _ _ _ (for_each_select_known known steps s Ha Hmap)).
  simpl. unfold bind, select_step, bind, get_cp.
  unfold registry. simpl. rewrite Ha, Hun. reflexivity.
Qed.

Definition configured_with (reg : dict Step) (steps : list Step) s : state :=
  mkState (set_processing_steps_attr steps
             (set_available_processing_steps (Some reg) (cp s)))
          (world s).

Lemma set_processing_steps_all (a : step_arg) (reg : dict Step) s :
  registry_after (available_processing_steps (cp s)) = (reg, Ok reg) ->
  str_in "all" (as_list a) = true ->
  set_processing_steps a s =
  (configured_with reg [] s, Ok (Some (dict_values reg))).
Proof.
  intros Hreg Hall. unfold set_processing_steps.
  unfold bind at 1. unfold update at 1. unfold bind at 1.
  rewrite get_available_processing_steps_eq. simpl. rewrite Hreg, Hall.
  unfold bind, get_cp, ret, registry, configured_with. simpl.
  destruct s as [c w]; destruct c; reflexivity.
Qed.

Lemma set_processing_steps_known (a : step_arg) (reg : dict Step)
      (steps : list Step) s :
  registry_after (available_processing_steps (cp s)) = (reg, Ok reg) ->
  str_in "all" (as_list a) = false ->
  map (dict_get reg) (as_list a) = map Some steps ->
  set_processing_steps a s = (configured_with reg steps s, Ok None).
Proof.
  intros Hreg Hall Hmap. unfold set_processing_steps.
  unfold bind at 1. unfold update at 1. unfold bind at 1.
  rewrite get_available_processing_steps_eq. simpl. rewrite Hreg, Hall.
  unfold bind at 1.
  rewrite (@for_each_select_known _ steps reg) by (simpl; auto).
  unfold ret, configured_with. simpl.
  destruct s as [c w]; destruct c; reflexivity.
Qed.

Lemma set_processing_steps_unknown (a : step_arg) (reg : dict Step)
      (known rest : list string) (unknown : string) (steps : list Step) s :
  registry_after (available_processing_steps (cp s)) = (reg, Ok reg) ->
  str_in "all" (as_list a) = false ->
  as_list a = known ++ unknown :: rest ->
  map (dict_get reg) known = map Some steps ->
  dict_get reg unknown = None ->
  set_processing_steps a s =
  (configured_with reg steps s,
   Raise (ProcessingError (MsgStepNotAvailable unknown))).
Proof.
  intros Hreg Hall Hsplit Hmap Hun. unfold set_processing_steps.
  unfold bind at 1. unfold update at 1. unfold bind at 1.
  rewrite get_available_processing_steps_eq. simpl. rewrite Hreg, Hall.
  unfold bind at 1. rewrite Hsplit.
  rewrite (@for_each_select_unknown known rest unknown steps reg) by (simpl; auto).
  unfold configured_with. simpl.
  destruct s as [c w]; destruct c; reflexivity.
Qed.
End Registry.

(** *** Relations kept by a run *)

Section Frames.
Variable R : state -> state -> Prop.
Hypothesis R_refl : forall s, R s s.
Hypothesis R_trans : forall s1 s2 s3, R s1 s2 -> R s2 s3 -> R s1 s3.

Definition keeps {A} (m : M A) : Prop := forall s, R s (fst (m s)).

Lemma keeps_ret {A} (a : A) : keeps (ret a).
Proof. intros s. apply R_refl. Qed.

Lemma keeps_raise {A} (e : exn) : keeps (raise (A := A) e).
Proof. intros s. apply R_refl. Qed.

Lemma keeps_get_cp : keeps get_cp.
Proof. intros s. apply R_refl. Qed.

Lemma keeps_bind {A B} (m : M A) (k : A -> M B) :
  keeps m -> (forall a, keeps (k a)) -> keeps (bind m k).
Proof.
  intros Hm Hk s. unfold bind.
  specialize (Hm s). destruct (m s) as [s1 [a|e]]; simpl in *.
  - eapply R_trans; [exact Hm | apply Hk].
  - exact Hm.
Qed.

Lemma keeps_try_except {A} (body : M A) (handler : exn -> M A) :
  keeps body -> (forall e, keeps (handler e)) -> keeps (try_except body handler).
Proof.
  intros Hb Hh s. unfold try_except.
  specialize (Hb s). destruct (body s) as [s1 [a|e]]; simpl in *.
  - exact Hb.
  - destruct (is_ProcessingError e); simpl.
    + eapply R_trans; [exact Hb | apply Hh].
    + exact Hb.
Qed.

Lemma keeps_for_each {A} (l : list A) (body : A -> M unit) :
  (forall x, keeps (body x)) -> keeps (for_each l body).
Proof.
  intros Hb. induction l as [|x r IH]; simpl.
  - apply keeps_ret.
  - apply keeps_bind; [apply Hb | intros _; exact IH].
Qed.
End Frames.

(** *** The stages of [process] *)

Section Process.
Variable sink_process : Sink -> list Unit -> World -> World * result unit.
Variable handle_input :
  InputHandler Unit -> key Unit -> World -> InputHandler Unit * World * result unit.
Variable get_input_db : InputHandler Unit -> World -> result (list (key Unit)).
Variable world_fs : World -> FS.node.
Variable process_content : M unit.

Notation pre_process_one := (@pre_process_one Unit Step Sink World handle_input).
Notation post_process_one := (@post_process_one Unit Step Sink World sink_process).
Notation get_input := (@get_input Unit Step Sink World get_input_db world_fs).
Notation pre_process :=
  (@pre_process Unit Step Sink World handle_input get_input_db world_fs).
Notation post_process := (@post_process Unit Step Sink World sink_process).
Notation process :=
  (@process Unit Step Sink World sink_process handle_input get_input_db
            world_fs process_content).

Ltac unfold_turn :=
  unfold pre_process_one, post_process_one, try_except,
    call_handle_input, the_input_handler, bind, get_cp, lift_world, ret, raise,
    append_pre_processing_error, append_post_processing_error, update.

(** One turn of the input loop. *)
Lemma pre_process_one_returns (k : key Unit) s h h' (w : World) :
  input_handler (cp s) = Some h ->
  handle_input h k (world s) = (h', w, Ok tt) ->
  pre_process_one k s =
  (mkState (set_input_handler_attr (Some h') (cp s)) w, Ok tt).
Proof.
  intros Hh Hk. unfold_turn. rewrite Hh. simpl. rewrite Hk. reflexivity.
Qed.

Lemma pre_process_one_caught (k : key Unit) s h h' (w : World) (m : message) :
  input_handler (cp s) = Some h ->
  handle_input h k (world s) = (h', w, Raise (ProcessingError m)) ->
  pre_process_one k s =
  (mkState (set_pre_processing_errors
              (pre_processing_errors (cp s) ++ [ProcessingError m])
              (set_input_handler_attr (Some h') (cp s))) w, Ok tt).
Proof.
  intros Hh Hk. unfold_turn. rewrite Hh. simpl. rewrite Hk. reflexivity.
Qed.

(** One turn of the post-processing loop. *)
Lemma post_process_one_returns (x : Sink) s (w : World) :
  sink_process x (processed_content (cp s)) (world s) = (w, Ok tt) ->
  post_process_one x s = (mkState (cp s) w, Ok tt).
Proof.
  intros Hx. unfold_turn. simpl. rewrite Hx. reflexivity.
Qed.

Lemma post_process_one_caught (x : Sink) s (w : World) (m : message) :
  sink_process x (processed_content (cp s)) (world s)
    = (w, Raise (ProcessingError m)) ->
  post_process_one x s =
  (mkState (set_post_processing_errors
              (post_processing_errors (cp s) ++ [ProcessingError m]) (cp s)) w,
   Ok tt).
Proof.
  intros Hx. unfold_turn. simpl. rewrite Hx. reflexivity.
Qed.

(** **** The input loop for a handler that keeps the contract of
    [handle_input]: a key that can be turned into a unit appends that
    unit to the handler's queue, and a key that cannot raises a
    [ProcessingError] and leaves the queue as it is. *)
Section InputLoop.
Variable parse : key Unit -> Unit + message.

Definition handler_after (h : InputHandler Unit) (k : key Unit) : InputHandler Unit :=
  match parse k with
  | inl u => with_handler_queue h (handler_queue h ++ [u])
  | inr _ => h
  end.

Definition outcome_of (k : key Unit) : result unit :=
  match parse k with
  | inl _ => Ok tt
  | inr m => Raise (ProcessingError m)
  end.

Definition keeps_contract : Prop :=
  forall h k w,
    fst (fst (handle_input h k w)) = handler_after h k /\
    snd (handle_input h k w) = outcome_of k.

(** The units of the keys that parse and the errors of those that
    do not, both in the order of the keys. *)
Definition parsed_units (keys : list (key Unit)) : list Unit :=
  flat_map (fun k => match parse k with inl u => [u] | inr _ => [] end) keys.

Definition parse_errors (keys : list (key Unit)) : list exn :=
  flat_map (fun k => match parse k with
                     | inl _ => []
                     | inr m => [ProcessingError m]
                     end) keys.

(** The world after [handle_input] has been called on every key, in
    order. *)
Fixpoint input_world (h : InputHandler Unit) (keys : list (key Unit)) (w : World)
  : World :=
  match keys with
  | [] => w
  | k :: rest =>
      input_world (fst (fst (handle_input h k w))) rest
                  (snd (fst (handle_input h k w)))
  end.

Definition after_input_loop (h : InputHandler Unit) (keys : list (key Unit)) s : state :=
  mkState
    (set_pre_processing_errors
       (pre_processing_errors (cp s) ++ parse_errors keys)
       (set_input_handler_attr
          (Some (with_handler_queue h (handler_queue h ++ parsed_units keys)))
          (cp s)))
    (input_world h keys (world s)).

Lemma input_loop (keys : list (key Unit)) s h :
  keeps_contract ->
  input_handler (cp s) = Some h ->
  for_each keys pre_process_one s = (after_input_loop h keys s, Ok tt).
Proof.
  intros Hc. revert s h. induction keys as [|k rest IH]; intros s h Hh.
  - unfold after_input_loop. simpl. rewrite !app_nil_r.
    destruct s as [c w]; destruct c; destruct h; simpl in *; subst; reflexivity.
  - simpl. destruct (Hc h k (world s)) as [Hh' Hr].
    destruct (handle_input h k (world s)) as [[h' w'] r] eqn:Hk.
    simpl in Hh', Hr. unfold handler_after, outcome_of in *.
    unfold after_input_loop. simpl. rewrite Hk. simpl.
    destruct (parse k) as [u|m]; subst h' r.
    + rewrite (bind_ok _ _ _ (pre_process_one_returns _ Hh Hk)).
      rewrite (IH _ (with_handler_queue h (handler_queue h ++ [u]))) by reflexivity.
      unfold after_input_loop. simpl. rewrite <- app_assoc. reflexivity.
    + rewrite (bind_ok _ _ _ (pre_process_one_caught _ Hh Hk)).
      rewrite (IH _ h) by reflexivity.
      unfold after_input_loop. simpl. rewrite <- app_assoc. reflexivity.
Qed.
End InputLoop.

(** **** The post-processing loop *)

(** Every sink of [sinks] called once on [batch], in order: the world
    they leave and the errors they raised. *)
Fixpoint sink_calls (batch : list Unit) (sinks : list Sink) (w : World)
  : World * list exn :=
  match sinks with
  | [] => (w, [])
  | x :: rest =>
      let (w1, r) := sink_process x batch w in
      let (w2, errs) := sink_calls batch rest w1 in
      (w2, match r with Raise e => e :: errs | Ok _ => errs end)
  end.

Definition sinks_raise_processing_errors_only (sinks : list Sink) : Prop :=
  forall x batch w e,
    In x sinks -> snd (sink_process x batch w) = Raise e ->
    is_ProcessingError e = true.

Definition after_output_loop (sinks : list Sink) s : state :=
  mkState
    (set_post_processing_errors
       (post_processing_errors (cp s)
          ++ snd (sink_calls (processed_content (cp s)) sinks (world s)))
       (cp s))
    (fst (sink_calls (processed_content (cp s)) sinks (world s))).

Lemma output_loop (sinks : list Sink) s :
  sinks_raise_processing_errors_only sinks ->
  for_each sinks post_process_one s = (after_output_loop sinks s, Ok tt).
Proof.
  revert s. induction sinks as [|x rest IH]; intros s Hpe.
  - unfold after_output_loop. simpl. rewrite app_nil_r.
    destruct s as [c w]; destruct c; reflexivity.
  - assert (Hrest : sinks_raise_processing_errors_only rest).
    { intros y b w e Hy. apply Hpe. right. exact Hy. }
    pose proof (Hpe x (processed_content (cp s)) (world s)) as Hx.
    unfold after_output_loop. simpl.
    destruct (sink_process x (processed_content (cp s)) (world s))
      as [w1 [[]|e]] eqn:Ecall.
    + rewrite (bind_ok _ _ _ (post_process_one_returns s Ecall)).
      rewrite (IH _ Hrest). unfold after_output_loop. simpl.
      destruct (sink_calls (processed_content (cp s)) rest w1). reflexivity.
    + specialize (Hx e (or_introl eq_refl) eq_refl).
      destruct e; try discriminate Hx.
      rewrite (bind_ok _ _ _ (post_process_one_caught s Ecall)).
      rewrite (IH _ Hrest). unfold after_output_loop. simpl.
      destruct (sink_calls (processed_content (cp s)) rest w1).
      simpl. rewrite <- app_assoc. reflexivity.
Qed.

Lemma post_process_eq s :
  sinks_raise_processing_errors_only (post_processing_steps (cp s)) ->
  post_process s = (after_output_loop (post_processing_steps (cp s)) s, Ok tt).
Proof.
  intros Hpe. unfold post_process, bind, get_cp. apply output_loop. exact Hpe.
Qed.

(** **** Single statements of [process] *)

Lemma the_input_handler_eq (attr : string) s h :
  input_handler (cp s) = Some h ->
  the_input_handler attr s = (s, Ok h).
Proof.
  intros Hh. unfold the_input_handler, bind, get_cp. rewrite Hh. reflexivity.
Qed.

Lemma update_eq (f : ContentProcessor -> ContentProcessor) s :
  update (World := World) f s = (mkState (f (cp s)) (world s), Ok tt).
Proof. reflexivity. Qed.

Lemma get_input_eq (h : InputHandler Unit) (keys : list (key Unit)) s :
  input_keys get_input_db world_fs h (world s) = Ok keys ->
  get_input h s = (s, Ok keys).
Proof. intros H. unfold get_input. rewrite H. reflexivity. Qed.

Ltac step tac := erewrite bind_ok by tac.

(** **** The whole of [process] *)

Definition after_reset s : state :=
  mkState (set_processed_content [] (set_pre_processed_content [] (cp s)))
          (world s).

Lemma reset_queues_eq s : reset_queues s = (after_reset s, Ok tt).
Proof. reflexivity. Qed.

Lemma process_after_reset s :
  process s =
  bind pre_process (fun _ => bind process_content (fun _ => post_process))
       (after_reset s).
Proof. reflexivity. Qed.

(** The state in which [process_content] starts when the handler
    keeps the contract of [handle_input]. *)
Definition after_pre_process (parse : key Unit -> Unit + message)
           (h : InputHandler Unit) (keys : list (key Unit)) s : state :=
  mkState
    (set_pre_processed_content (parsed_units parse keys)
       (set_pre_processing_errors
          (pre_processing_errors (cp s) ++ parse_errors parse keys)
          (set_input_handler_attr
             (Some (with_handler_queue h (parsed_units parse keys)))
             (cp s))))
    (input_world (with_handler_queue h []) keys (world s)).

Lemma pre_process_eq (parse : key Unit -> Unit + message)
      (h : InputHandler Unit) (keys : list (key Unit)) s :
  keeps_contract parse ->
  input_handler (cp s) = Some h ->
  input_keys get_input_db world_fs (with_handler_queue h []) (world s) = Ok keys ->
  pre_process s = (after_pre_process parse h keys s, Ok tt).
Proof.
  intros Hc Hh Hkeys. unfold pre_process.
  step ltac:(apply the_input_handler_eq; exact Hh).
  step ltac:(apply update_eq).
  step ltac:(apply the_input_handler_eq; reflexivity).
  step ltac:(apply get_input_eq; exact Hkeys).
  step ltac:(apply (input_loop keys _ (h := with_handler_queue h []) Hc); reflexivity).
  step ltac:(apply the_input_handler_eq; reflexivity).
  rewrite update_eq. unfold after_input_loop, after_pre_process. simpl.
  destruct s as [c w]; destruct c; destruct h; reflexivity.
Qed.

(** Without any assumption on the handler but the class of what it
    raises, the input loop returns. *)
Definition handler_raises_processing_errors_only : Prop :=
  forall h k w e,
    snd (handle_input h k w) = Raise e -> is_ProcessingError e = true.

Lemma input_loop_returns (keys : list (key Unit)) s h :
  handler_raises_processing_errors_only ->
  input_handler (cp s) = Some h ->
  snd (for_each keys pre_process_one s) = Ok tt /\
  exists h', input_handler (cp (fst (for_each keys pre_process_one s))) = Some h'.
Proof.
  intros Hpe. revert s h. induction keys as [|k rest IH]; intros s h Hh.
  - simpl. split; [reflexivity | exists h; exact Hh].
  - simpl. pose proof (Hpe h k (world s)) as Hk.
    destruct (handle_input h k (world s)) as [[h' w'] [[]|e]] eqn:Ecall.
    + rewrite (bind_ok _ _ _ (pre_process_one_returns s Hh Ecall)).
      apply (IH _ h'). reflexivity.
    + specialize (Hk e eq_refl). destruct e; try discriminate Hk.
      rewrite (bind_ok _ _ _ (pre_process_one_caught s Hh Ecall)).
      apply (IH _ h'). reflexivity.
Qed.

Lemma pre_process_returns (keys : list (key Unit)) s h :
  handler_raises_processing_errors_only ->
  input_handler (cp s) = Some h ->
  input_keys get_input_db world_fs (with_handler_queue h []) (world s) = Ok keys ->
  snd (pre_process s) = Ok tt.
Proof.
  intros Hpe Hh Hkeys. unfold pre_process.
  step ltac:(apply the_input_handler_eq; exact Hh).
  step ltac:(apply update_eq).
  step ltac:(apply the_input_handler_eq; reflexivity).
  step ltac:(apply get_input_eq; exact Hkeys).
  match goal with |- context [bind (for_each keys _) _ ?s0] =>
    destruct (@input_loop_returns keys s0 (with_handler_queue h []) Hpe eq_refl)
      as [Hok [h' Hh']];
    unfold bind at 1;
    destruct (for_each keys pre_process_one s0) as [s1 r]
  end.
  simpl in Hok, Hh'. subst r.
  step ltac:(apply the_input_handler_eq; exact Hh'). reflexivity.
Qed.

Lemma process_returns (keys : list (key Unit)) s h :
  handler_raises_processing_errors_only ->
  (forall sinks, sinks_raise_processing_errors_only sinks) ->
  (forall s', snd (process_content s') = Ok tt) ->
  input_handler (cp s) = Some h ->
  input_keys get_input_db world_fs (with_handler_queue h []) (world s) = Ok keys ->
  snd (process s) = Ok tt.
Proof.
  intros Hpe Hsinks Hpc Hh Hkeys. rewrite process_after_reset.
  pose proof (@pre_process_returns keys (after_reset s) h Hpe Hh Hkeys) as Hpre.
  unfold bind at 1. destruct (pre_process (after_reset s)) as [s1 r1].
  simpl in Hpre. subst r1.
  unfold bind at 1. pose proof (Hpc s1) as H1.
  destruct (process_content s1) as [s2 r2]. simpl in H1. subst r2.
  rewrite post_process_eq by apply Hsinks. reflexivity.
Qed.

(** **** Error lists only grow *)

Definition errors_extend c c' : Prop :=
  extends (pre_processing_errors c) (pre_processing_errors c') /\
  extends (processing_errors c) (processing_errors c') /\
  extends (post_processing_errors c) (post_processing_errors c').

Definition errors_grow s s' : Prop := errors_extend (cp s) (cp s').

Lemma errors_grow_refl s : errors_grow s s.
Proof. repeat split; apply extends_refl. Qed.

Lemma errors_grow_trans s1 s2 s3 :
  errors_grow s1 s2 -> errors_grow s2 s3 -> errors_grow s1 s3.
Proof.
  intros (A1 & B1 & C1) (A2 & B2 & C2).
  repeat split; eapply extends_trans; eassumption.
Qed.

Lemma grows_bind {A B} (m : M A) (k : A -> M B) :
  keeps errors_grow m -> (forall a, keeps errors_grow (k a)) ->
  keeps errors_grow (bind m k).
Proof. apply keeps_bind. exact errors_grow_trans. Qed.

Lemma grows_the_input_handler (attr : string) :
  keeps errors_grow (the_input_handler (World := World) attr).
Proof.
  intros s. unfold the_input_handler, bind, get_cp.
  destruct (input_handler (cp s)); apply errors_grow_refl.
Qed.

Lemma grows_pre_process_one (k : key Unit) : keeps errors_grow (pre_process_one k).
Proof.
  apply keeps_try_except; [exact errors_grow_trans | |].
  - apply grows_bind; [apply grows_the_input_handler |].
    intros h s. destruct (handle_input h k (world s)) as [[h' w] r].
    unfold errors_grow, errors_extend; simpl.
    repeat split; first [apply extends_refl | apply extends_app].
  - intros e s.
    unfold errors_grow, errors_extend; simpl.
    repeat split; first [apply extends_refl | apply extends_app].
Qed.

Lemma grows_post_process_one (x : Sink) : keeps errors_grow (post_process_one x).
Proof.
  apply keeps_try_except; [exact errors_grow_trans | |].
  - apply grows_bind; [intros s; apply errors_grow_refl |].
    intros c s. unfold lift_world.
    destruct (sink_process x (processed_content c) (world s)).
    unfold errors_grow, errors_extend; simpl.
    repeat split; first [apply extends_refl | apply extends_app].
  - intros e s.
    unfold errors_grow, errors_extend; simpl.
    repeat split; first [apply extends_refl | apply extends_app].
Qed.

Lemma grows_pre_process : keeps errors_grow pre_process.
Proof.
  unfold pre_process.
  apply grows_bind; [apply grows_the_input_handler | intros h].
  apply grows_bind; [intros s; unfold errors_grow, errors_extend; simpl;
      repeat split; first [apply extends_refl | apply extends_app]| intros _].
  apply grows_bind; [apply grows_the_input_handler | intros h'].
  apply grows_bind; [intros s; apply errors_grow_refl | intros keys].
  apply grows_bind.
  - apply keeps_for_each;
      [exact errors_grow_refl | exact errors_grow_trans | apply grows_pre_process_one].
  - intros _. apply grows_bind; [apply grows_the_input_handler | intros h''].
    intros s.
    unfold errors_grow, errors_extend; simpl.
    repeat split; first [apply extends_refl | apply extends_app].
Qed.

Lemma grows_post_process : keeps errors_grow post_process.
Proof.
  unfold post_process.
  apply grows_bind; [intros s; apply errors_grow_refl | intros c].
  apply keeps_for_each;
    [exact errors_grow_refl | exact errors_grow_trans | apply grows_post_process_one].
Qed.

Lemma grows_process :
  keeps errors_grow process_content -> keeps errors_grow process.
Proof.
  intros Hpc. unfold process.
  apply grows_bind; [intros s; unfold errors_grow, errors_extend; simpl;
      repeat split; first [apply extends_refl | apply extends_app]| intros _].
  apply grows_bind; [apply grows_pre_process | intros _].
  apply grows_bind; [exact Hpc | intros _].
  apply grows_post_process.
Qed.
End Process.

(** *** What the specification states about the controller *)

Section Claims.
Variable step_process : Step -> Unit -> World -> World * result Unit.
Variable sink_process : Sink -> list Unit -> World -> World * result unit.
Variable handle_input :
  InputHandler Unit -> key Unit -> World -> InputHandler Unit * World * result unit.
Variable get_input_db : InputHandler Unit -> World -> result (list (key Unit)).
Variable world_fs : World -> FS.node.
Variable process_content : M unit.
Variable empty_content : M unit.
Variable PROCESSING_STEPS : list string.
Variable import_module : string -> module_desc Step.

Notation call_step := (call_step (Sink := Sink) step_process).
Notation call_steps := (call_steps (Sink := Sink) step_process).
Notation call_processing_steps := (call_processing_steps (Sink := Sink) step_process).
Notation set_processing_steps :=
  (@set_processing_steps Unit Step Sink World PROCESSING_STEPS import_module).
Notation registry_after := (registry_after PROCESSING_STEPS import_module).
Notation pre_process_one := (@pre_process_one Unit Step Sink World handle_input).
Notation post_process_one := (@post_process_one Unit Step Sink World sink_process).
Notation pre_process :=
  (@pre_process Unit Step Sink World handle_input get_input_db world_fs).
Notation post_process := (@post_process Unit Step Sink World sink_process).
Notation process :=
  (@process Unit Step Sink World sink_process handle_input get_input_db
            world_fs process_content).
Notation handle :=
  (@handle Unit Step Sink World sink_process handle_input get_input_db
           world_fs process_content empty_content PROCESSING_STEPS import_module).
Notation input_keys := (input_keys get_input_db world_fs).

Lemma call_processing_steps_eq (u : Unit) s :
  call_processing_steps u s = call_steps (processing_steps (cp s)) u s.
Proof. reflexivity. Qed.

Definition steps_raise_processing_errors_only : Prop :=
  forall step u w e,
    snd (step_process step u w) = Raise e -> is_ProcessingError e = true.

Lemma call_steps_returns (steps : list Step) (u : Unit) s :
  steps_raise_processing_errors_only ->
  exists u', snd (call_steps steps u s) = Ok u'.
Proof.
  intros Hpe. revert u s. induction steps as [|x rest IH]; intros u s; simpl.
  - exists u. reflexivity.
  - pose proof (Hpe x u (world s)) as Hx.
    destruct (step_process x u (world s)) as [w [u'|e]] eqn:Ecall.
    + rewrite (bind_ok _ _ _ (call_step_returns step_process x u s Ecall)).
      apply IH.
    + specialize (Hx e eq_refl). destruct e; try discriminate Hx.
      rewrite (bind_ok _ _ _ (call_step_caught step_process x u s Ecall)).
      apply IH.
Qed.

(** C1: with ['all'] among the requested names, [set_processing_steps]
    hands the registered steps back to its caller and leaves the
    selected step list empty, so that [call_processing_steps] then
    applies no step at all. *)
Theorem C1_all_leaves_selection_empty :
  forall (a : step_arg) (reg : dict Step) s,
    registry_after (available_processing_steps (cp s)) = (reg, Ok reg) ->
    str_in "all" (as_list a) = true ->
    set_processing_steps a s =
      (configured_with reg [] s, Ok (Some (dict_values reg))) /\
    processing_steps (cp (configured_with reg [] s)) = [] /\
    forall u : Unit,
      call_processing_steps u (configured_with reg [] s) =
      (configured_with reg [] s, Ok u).
Proof.
  intros a reg s Hreg Hall. split; [| split].
  - apply set_processing_steps_all; assumption.
  - reflexivity.
  - intros u. reflexivity.
Qed.

(** C2: for a list of registered names without ['all'], the selected
    steps are the registry entries of the names, in the order of the
    request, and [call_processing_steps] applies them in that order.
    At any position, a step that returns hands its result to the steps
    after it; a step that raises a [ProcessingError] has that error
    appended to the processing errors and the steps after it run on the
    value the failing step was given.  When steps raise nothing but
    processing errors the call returns a unit. *)
Theorem C2_steps_in_requested_order_failure_isolated :
  forall (a : step_arg) (reg : dict Step) (steps : list Step) s,
    registry_after (available_processing_steps (cp s)) = (reg, Ok reg) ->
    str_in "all" (as_list a) = false ->
    map (dict_get reg) (as_list a) = map Some steps ->
    set_processing_steps a s = (configured_with reg steps s, Ok None) /\
    processing_steps (cp (configured_with reg steps s)) = steps /\
    (forall (before after : list Step) (step : Step) (u u_i : Unit) s1 s_i,
        processing_steps (cp s1) = before ++ step :: after ->
        call_steps before u s1 = (s_i, Ok u_i) ->
        (forall w u',
            step_process step u_i (world s_i) = (w, Ok u') ->
            call_processing_steps u s1 =
            call_steps after u' (mkState (cp s_i) w)) /\
        (forall w m,
            step_process step u_i (world s_i) = (w, Raise (ProcessingError m)) ->
            call_processing_steps u s1 =
            call_steps after u_i
              (record_processing_error (ProcessingError m) s_i w))) /\
    (steps_raise_processing_errors_only ->
     forall (u : Unit) s1, exists u', snd (call_processing_steps u s1) = Ok u').
Proof.
  intros a reg steps s Hreg Hall Hmap. split; [| split; [| split]].
  - apply set_processing_steps_known; assumption.
  - reflexivity.
  - intros before after step u u_i s1 s_i Hsteps Hbefore. split.
    + intros w u' Hstep. rewrite call_processing_steps_eq, Hsteps.
      rewrite (call_steps_at step_process before after step u s1 Hbefore).
      rewrite (bind_ok _ _ _ (call_step_returns step_process step u_i s_i Hstep)).
      reflexivity.
    + intros w m Hstep. rewrite call_processing_steps_eq, Hsteps.
      rewrite (call_steps_at step_process before after step u s1 Hbefore).
      rewrite (bind_ok _ _ _ (call_step_caught step_process step u_i s_i Hstep)).
      reflexivity.
  - intros Hpe u s1. rewrite call_processing_steps_eq.
    apply call_steps_returns. exact Hpe.
Qed.

(** C4: with a handler that keeps the contract of [handle_input],
    [process] calls [handle_input] on every key that [get_input]
    returned, in order; the error of a key that fails is appended to
    the pre-processing errors and the keys after it are handled all the
    same, so that [process_content] starts on the units of the keys
    that succeeded, in the order of the keys. *)
Theorem C4_every_key_handled_failures_recorded :
  forall (parse : key Unit -> Unit + message) (h : InputHandler Unit)
         (keys : list (key Unit)) s,
    keeps_contract handle_input parse ->
    input_handler (cp s) = Some h ->
    input_keys (with_handler_queue h []) (world s) = Ok keys ->
    let s_pre := after_pre_process handle_input parse h keys (after_reset s) in
    bind reset_queues (fun _ => pre_process) s = (s_pre, Ok tt) /\
    process s = bind process_content (fun _ => post_process) s_pre /\
    pre_processed_content (cp s_pre) = parsed_units parse keys /\
    pre_processing_errors (cp s_pre) =
      pre_processing_errors (cp s) ++ parse_errors parse keys /\
    world s_pre = input_world handle_input (with_handler_queue h []) keys (world s).
Proof.
  intros parse h keys s Hc Hh Hkeys s_pre.
  assert (Hpre : pre_process (after_reset s) = (s_pre, Ok tt)).
  { apply pre_process_eq; assumption. }
  split; [| split; [| repeat split]].
  - rewrite (bind_ok _ _ _ (reset_queues_eq s)). exact Hpre.
  - rewrite process_after_reset. rewrite (bind_ok _ _ _ Hpre). reflexivity.
Qed.

Definition with_handler (h : InputHandler Unit) s : state :=
  mkState (set_input_handler_attr (Some h) (cp s)) (world s).

(** What a run works on: the two queues and the three error lists. *)
Definition run_data c :=
  (pre_processed_content c, processed_content c,
   pre_processing_errors c, processing_errors c, post_processing_errors c).

Lemma make_handler_pure (o : options) s :
  fst (make_handler (Unit := Unit) (Step := Step) (Sink := Sink) o s) = s.
Proof.
  unfold make_handler.
  destruct (String.eqb (opt_input_handler o) "fs");
    [destruct (String.eqb (opt_source o) "serializer")
    | destruct (String.eqb (opt_input_handler o) "db")]; reflexivity.
Qed.

(** C6: a requested list without ['all'] that holds a name missing
    from the registry makes [set_processing_steps] raise the
    step-not-available [ProcessingError] at the first such name; the
    command stops there, before [process]: the world is as it was,
    and so are the queues and the error lists. *)
Theorem C6_unknown_step_aborts_before_process :
  forall (o : options) (reg : dict Step) (known rest : list string)
         (unknown : string) (steps : list Step) s,
    registry_after (available_processing_steps (cp s)) = (reg, Ok reg) ->
    str_in "all" (as_list (opt_step o)) = false ->
    as_list (opt_step o) = known ++ unknown :: rest ->
    map (dict_get reg) known = map Some steps ->
    dict_get reg unknown = None ->
    set_processing_steps (opt_step o) s =
      (configured_with reg steps s,
       Raise (ProcessingError (MsgStepNotAvailable unknown))) /\
    (forall h, make_handler o s = (s, Ok h) ->
       handle o s =
       (configured_with reg steps (with_handler h s),
        Raise (ProcessingError (MsgStepNotAvailable unknown)))) /\
    (forall e, make_handler o s = (s, Raise e) -> handle o s = (s, Raise e)) /\
    (exists e, snd (handle o s) = Raise e) /\
    world (fst (handle o s)) = world s /\
    run_data (cp (fst (handle o s))) = run_data (cp s).
Proof.
  intros o reg known rest unknown steps s Hreg Hall Hsplit Hmap Hun.
  assert (Hset : forall s0,
    available_processing_steps (cp s0) = available_processing_steps (cp s) ->
    set_processing_steps (opt_step o) s0 =
      (configured_with reg steps s0,
       Raise (ProcessingError (MsgStepNotAvailable unknown)))).
  { intros s0 Hsame. eapply set_processing_steps_unknown; eauto.
    rewrite Hsame. exact Hreg. }
  assert (Hok : forall h, make_handler o s = (s, Ok h) ->
    handle o s =
      (configured_with reg steps (with_handler h s),
       Raise (ProcessingError (MsgStepNotAvailable unknown)))).
  { intros h Hh. unfold handle.
    rewrite (bind_ok _ _ s (s' := s) (a := tt)) by reflexivity.
    rewrite (bind_ok _ _ _ Hh).
    rewrite (bind_ok _ _ s (s' := with_handler h s) (a := tt)) by reflexivity.
    apply bind_raise. apply Hset. reflexivity. }
  assert (Hraise : forall e, make_handler o s = (s, Raise e) ->
    handle o s = (s, Raise e)).
  { intros e He. unfold handle.
    rewrite (bind_ok _ _ s (s' := s) (a := tt)) by reflexivity.
    apply bind_raise. exact He. }
  split; [apply Hset; reflexivity |].
  split; [exact Hok |]. split; [exact Hraise |].
  pose proof (make_handler_pure o s) as Hpure.
  destruct (make_handler o s) as [s0 [h|e]] eqn:Emk; simpl in Hpure; subst s0.
  - rewrite (Hok h eq_refl). simpl.
    split; [eexists; reflexivity |]. split; reflexivity.
  - rewrite (Hraise e eq_refl). simpl.
    split; [eexists; reflexivity |]. split; reflexivity.
Qed.



(** The three error lists, and the four counters. *)
Inductive error_list : Type :=
| PreProcessingErrors
| ProcessingErrors
| PostProcessingErrors.

Definition errors_of (l : error_list) c : list exn :=
  match l with
  | PreProcessingErrors => pre_processing_errors c
  | ProcessingErrors => processing_errors c
  | PostProcessingErrors => post_processing_errors c
  end.

Definition counters c : Z * Z * Z * Z :=
  (file_counter c, file_failed_counter c, doc_counter c, doc_failed_counter c).

(** From [c] to [c'] the error [e] was appended to the list [l], and
    neither another list nor a counter changed. *)
Definition records_failure (l : error_list) (e : exn) c c' : Prop :=
  errors_of l c' = errors_of l c ++ [e] /\
  (forall l', l' <> l -> errors_of l' c' = errors_of l' c) /\
  counters c' = counters c.

(** C8: a [ProcessingError] caught in a run, whether raised by
    [handle_input], by a processing step or by a sink, is appended once
    to the error list of its stage; the other two lists and the four
    counters, the failure counters among them, stay as they are, and
    the guarded call returns.  With a handler and sinks that raise
    nothing but processing errors and a [process_content] that
    returns, [process] returns to its caller. *)
Theorem C8_caught_failure_recorded_once_counters_untouched :
  (forall (step : Step) (u : Unit) s (w : World) (m : message),
      step_process step u (world s) = (w, Raise (ProcessingError m)) ->
      snd (call_step step u s) = Ok u /\
      records_failure ProcessingErrors (ProcessingError m)
                      (cp s) (cp (fst (call_step step u s)))) /\
  (forall (k : key Unit) s (h h' : InputHandler Unit) (w : World) (m : message),
      input_handler (cp s) = Some h ->
      handle_input h k (world s) = (h', w, Raise (ProcessingError m)) ->
      snd (pre_process_one k s) = Ok tt /\
      records_failure PreProcessingErrors (ProcessingError m)
                      (cp s) (cp (fst (pre_process_one k s)))) /\
  (forall (x : Sink) s (w : World) (m : message),
      sink_process x (processed_content (cp s)) (world s)
        = (w, Raise (ProcessingError m)) ->
      snd (post_process_one x s) = Ok tt /\
      records_failure PostProcessingErrors (ProcessingError m)
                      (cp s) (cp (fst (post_process_one x s)))) /\
  (forall (keys : list (key Unit)) s (h : InputHandler Unit),
      handler_raises_processing_errors_only handle_input ->
      (forall sinks, sinks_raise_processing_errors_only sink_process sinks) ->
      (forall s', snd (process_content s') = Ok tt) ->
      input_handler (cp s) = Some h ->
      input_keys (with_handler_queue h []) (world s) = Ok keys ->
      snd (process s) = Ok tt).
Proof.
  split; [| split; [| split]].
  4: { intros keys s h Hpe Hsinks Hpc Hh Hkeys.
       eapply process_returns; eassumption. }
  1: intros step u s w m Hstep;
     rewrite (call_step_caught step_process step u s Hstep).
  2: intros k s h h' w m Hh Hk;
     rewrite (pre_process_one_caught handle_input _ _ Hh Hk).
  3: intros x s w m Hx;
     rewrite (post_process_one_caught sink_process _ _ Hx).
  all: split; [reflexivity |];
    split; [reflexivity |]; split; [| reflexivity];
    intros [] Hl; solve [reflexivity | exfalso; apply Hl; reflexivity].
Qed.

(** C9: [process] starts by emptying the pre-processed and the
    processed queue and touches no error list in doing so; what the
    queues held before has no influence on the run; and with a
    [process_content] that only adds to the error lists, the three
    lists after the run are the lists before it with the new errors
    at the end. *)
Theorem C9_rerun_resets_queues_keeps_errors :
  forall s,
    reset_queues s = (after_reset s, Ok tt) /\
    pre_processed_content (cp (after_reset s)) = [] /\
    processed_content (cp (after_reset s)) = [] /\
    (forall l, errors_of l (cp (after_reset s)) = errors_of l (cp s)) /\
    process s =
      bind pre_process (fun _ => bind process_content (fun _ => post_process))
           (after_reset s) /\
    (forall q1 q2 : list Unit,
        process (mkState (set_pre_processed_content q1
                            (set_processed_content q2 (cp s))) (world s))
        = process s) /\
    (keeps errors_grow process_content -> errors_grow s (fst (process s))).
Proof.
  intros s.
  split; [reflexivity |]. split; [reflexivity |]. split; [reflexivity |].
  split; [intros []; reflexivity |]. split; [reflexivity |].
  split; [intros q1 q2; reflexivity |].
  intros Hpc. apply grows_process. exact Hpc.
Qed.
End Claims.
End PipelineFacts.

(** ** The concrete pipeline *)

Module DemoFacts.
Import Demo.

Lemma steps_only_fail (step content : string) (w : World) (e : exn) :
  snd (step_process step content w) = Raise e -> is_ProcessingError e = true.
Proof.
  unfold step_process. simpl.
  destruct (String.eqb step "broken"); intros H; inversion H. reflexivity.
Qed.

Lemma sinks_only_fail (sinks : list string) :
  sinks_raise_processing_errors_only sink_process sinks.
Proof.
  intros x batch w e _. unfold sink_process. simpl.
  destruct (String.eqb x "bad"); intros H; inversion H. reflexivity.
Qed.

Lemma handler_keeps_contract : keeps_contract handle_input parse.
Proof.
  intros h k w. unfold handle_input, handler_after, outcome_of.
  destruct (parse k); split; reflexivity.
Qed.

Lemma handler_only_fails : handler_raises_processing_errors_only handle_input.
Proof.
  intros h k w e. destruct (handler_keeps_contract h k w) as [_ Hr].
  rewrite Hr. unfold outcome_of.
  destruct (parse k); intros H; inversion H. reflexivity.
Qed.

Lemma process_one_returns (content : string) (s : state string string string World) :
  snd (process_one content s) = Ok tt.
Proof.
  unfold process_one, bind.
  destruct (@call_steps_returns string string string World step_process
              (processing_steps (cp s)) content s steps_only_fail) as [u' Hu'].
  change (call_processing_steps step_process content s)
    with (call_steps step_process (processing_steps (cp s)) content s).
  destruct (call_steps step_process (processing_steps (cp s)) content s) as [s1 r].
  simpl in Hu'. subst r. reflexivity.
Qed.

Lemma process_content_returns (s : state string string string World) :
  snd (process_content s) = Ok tt.
Proof.
  unfold process_content, bind, get_cp.
  generalize (pre_processed_content (cp s)). intros q. revert s.
  induction q as [|u r IH]; intros s; simpl.
  - reflexivity.
  - unfold bind. pose proof (process_one_returns u s) as Hu.
    destruct (process_one u s) as [s1 r1]. simpl in Hu. subst r1. apply IH.
Qed.

Lemma process_one_grows (content : string) : keeps (@errors_grow _ _ _ _) (process_one content).
Proof.
  apply keeps_bind; [exact (@errors_grow_trans _ _ _ _) | |].
  - intros s.
    destruct (@call_steps_frame string string string World step_process
                (processing_steps (cp s)) content s) as (errs & Heq & Hext).
    change (call_processing_steps step_process content s)
      with (call_steps step_process (processing_steps (cp s)) content s).
    unfold errors_grow, errors_extend. rewrite Heq. simpl.
    repeat split; [apply extends_refl | exact Hext | apply extends_refl].
  - intros u s. unfold errors_grow, errors_extend. simpl.
    repeat split; apply extends_refl.
Qed.

Lemma process_content_grows : keeps (@errors_grow _ _ _ _) process_content.
Proof.
  apply keeps_bind; [exact (@errors_grow_trans _ _ _ _) | |].
  - intros s. apply errors_grow_refl.
  - intros c. apply keeps_for_each;
      [exact (@errors_grow_refl _ _ _ _) | exact (@errors_grow_trans _ _ _ _)
      | exact process_one_grows].
Qed.

Notation handler0 := (new_handler string HandlerFS 20 0 (SelStr "d")).

Lemma C1_witness :
  set_processing_steps (StepList ["all"]) state0 =
    (configured_with registry0 [] state0,
     Ok (Some ["assign_court"; "broken"; "extract_refs"])) /\
  processing_steps (cp (configured_with registry0 [] state0)) = [] /\
  forall u : string,
    call_processing_steps step_process u (configured_with registry0 [] state0) =
    (configured_with registry0 [] state0, Ok u).
Proof.
  exact (@C1_all_leaves_selection_empty string string string World step_process
           PROCESSING_STEPS import_module (StepList ["all"]) registry0 state0
           eq_refl eq_refl).
Defined.

Lemma C2_witness :
  let steps := ["extract_refs"; "broken"; "assign_court"] in
  let s1 := configured_with registry0 steps state0 in
  set_processing_steps (StepList steps) state0 = (s1, Ok None) /\
  snd (call_processing_steps step_process "doc" s1)
    = Ok "doc+extract_refs+assign_court" /\
  processing_errors (cp (fst (call_processing_steps step_process "doc" s1)))
    = [ProcessingError (MsgText "step failed")].
Proof.
  intros steps s1.
  destruct (@C2_steps_in_requested_order_failure_isolated
              string string string World step_process PROCESSING_STEPS
              import_module (StepList steps) registry0 steps state0
              eq_refl eq_refl eq_refl) as (Hset & _ & Hat & _).
  split; [exact Hset |].
  destruct (Hat ["extract_refs"] ["assign_court"] "broken" "doc"
                "doc+extract_refs" s1
                (mkState (cp s1) (record_event (Stepped "extract_refs" "doc") world0))
                eq_refl eq_refl) as [_ Hfail].
  rewrite (Hfail _ _ eq_refl). split; reflexivity.
Defined.

Lemma C4_witness :
  let s_pre :=
    fst (bind reset_queues
              (fun _ => pre_process handle_input get_input_db files) run_state) in
  pre_processed_content (cp s_pre) = ["d/a.json"; "d/sub"] /\
  pre_processing_errors (cp s_pre) = [ProcessingError (MsgText "cannot parse")] /\
  journal (world s_pre) =
    [Handled (PathKey "d/a.json"); Handled (PathKey "d/b.json");
     Handled (PathKey "d/sub")].
Proof.
  destruct (@C4_every_key_handled_failures_recorded
              string string string World sink_process handle_input get_input_db
              files process_content parse handler0
              [PathKey "d/a.json"; PathKey "d/b.json"; PathKey "d/sub"]
              run_state handler_keeps_contract eq_refl eq_refl)
    as (Hpre & _ & Hq & He & Hw).
  cbv zeta. rewrite Hpre. simpl fst. rewrite Hq, He, Hw.
  repeat split.
Defined.

Lemma C6_witness :
  handle (opts ["extract_refs"; "nope"; "assign_court"]) state0 =
  (configured_with registry0 ["extract_refs"] (with_handler handler0 state0),
   Raise (ProcessingError (MsgStepNotAvailable "nope"))).
Proof.
  destruct (@C6_unknown_step_aborts_before_process
              string string string World sink_process handle_input get_input_db
              files process_content empty_content PROCESSING_STEPS import_module
              (opts ["extract_refs"; "nope"; "assign_court"]) registry0
              ["extract_refs"] ["assign_court"] "nope" ["extract_refs"] state0
              eq_refl eq_refl eq_refl eq_refl eq_refl) as (_ & Hok & _).
  exact (Hok handler0 eq_refl).
Defined.

(** With ['all'] in the request the names are not checked: the name
    [nope] is not registered, yet the configuration returns and the run
    goes on to read and handle its input. *)
Lemma C6_counterexample :
  dict_get registry0 "nope" = None /\
  In "nope" ["all"; "nope"] /\
  snd (set_processing_steps (StepList ["all"; "nope"]) state0)
    = Ok (Some ["assign_court"; "broken"; "extract_refs"]) /\
  snd (handle (opts ["all"; "nope"]) state0) = Ok tt /\
  journal (world (fst (handle (opts ["all"; "nope"]) state0))) =
    [Handled (PathKey "d/a.json"); Handled (PathKey "d/b.json");
     Handled (PathKey "d/sub")].
Proof.
  split; [reflexivity |]. split; [right; left; reflexivity |].
  split; [reflexivity |]. split; reflexivity.
Qed.


Lemma C8_witness :
  snd (process run_state) = Ok tt /\
  records_failure ProcessingErrors (ProcessingError (MsgText "step failed"))
    (cp run_state) (cp (fst (call_step step_process "broken" "doc" run_state))).
Proof.
  destruct (@C8_caught_failure_recorded_once_counters_untouched
              string string string World step_process sink_process handle_input
              get_input_db files process_content)
    as (Hstep & _ & _ & Hrun).
  split.
  - exact (Hrun [PathKey "d/a.json"; PathKey "d/b.json"; PathKey "d/sub"]
                run_state handler0 handler_only_fails sinks_only_fail
                process_content_returns eq_refl eq_refl).
  - exact (proj2 (Hstep "broken" "doc" run_state
                        (record_event (Stepped "broken" "doc") world0)
                        (MsgText "step failed") eq_refl)).
Defined.

(** A step fails and a key fails: each failure is in its error list,
    and neither failure counter has moved. *)
Lemma C8_counterexample :
  let s := configured ["broken"] [] in
  let s1 := fst (call_processing_steps step_process "doc" s) in
  let s2 := fst (bind reset_queues
                      (fun _ => pre_process handle_input get_input_db files) s) in
  processing_errors (cp s1) = [ProcessingError (MsgText "step failed")] /\
  pre_processing_errors (cp s2) = [ProcessingError (MsgText "cannot parse")] /\
  ~ (file_failed_counter (cp s1) = file_failed_counter (cp s) + 1 \/
     doc_failed_counter (cp s1) = doc_failed_counter (cp s) + 1) /\
  ~ (file_failed_counter (cp s2) = file_failed_counter (cp s) + 1 \/
     doc_failed_counter (cp s2) = doc_failed_counter (cp s) + 1).
Proof.
  cbv zeta. split; [reflexivity |]. split; [reflexivity |].
  split; intros [H|H]; discriminate H.
Qed.

Lemma C9_witness :
  errors_grow run_state (fst (process run_state)) /\
  process (mkState (set_pre_processed_content ["stale"]
                      (set_processed_content ["older"] (cp run_state)))
                   (world run_state))
    = process run_state.
Proof.
  destruct (@C9_rerun_resets_queues_keeps_errors
              string string string World sink_process handle_input get_input_db
              files process_content run_state)
    as (_ & _ & _ & _ & _ & Hqueues & Hgrow).
  split.
  - exact (Hgrow process_content_grows).
  - exact (Hqueues ["stale"] ["older"]).
Defined.
End DemoFacts.

(** * Further properties of the code *)

(** ** More on the file-system input handler *)

Module InputHandlerFSMore.
Import PySeq PySeqFacts InputHandlerFS InputHandlerFSFacts.

(** What [get_input] computes once the selector is set. *)
Lemma get_input_ok_inv {Unit} (fs : FS.node) (h : InputHandler Unit)
      (keys : list string) :
  get_input fs h = Ok keys ->
  let tail := slice_from (get_input_content_from_selector fs (input_selector h))
                         (input_start h) in
  input_selector h <> SelNone /\ tail <> [] /\
  keys = if input_limit h >? 0 then slice_to tail (input_limit h) else tail.
Proof.
  unfold get_input. intros H. cbv zeta.
  assert (Hgen : forall sel,
    (if len (slice_from (get_input_content_from_selector fs sel) (input_start h)) <? 1
     then Raise (empty_input_error sel)
     else if input_limit h >? 0
          then Ok (slice_to (slice_from (get_input_content_from_selector fs sel)
                                        (input_start h)) (input_limit h))
          else Ok (slice_from (get_input_content_from_selector fs sel) (input_start h)))
    = Ok keys ->
    slice_from (get_input_content_from_selector fs sel) (input_start h) <> [] /\
    keys = if input_limit h >? 0
           then slice_to (slice_from (get_input_content_from_selector fs sel)
                                     (input_start h)) (input_limit h)
           else slice_from (get_input_content_from_selector fs sel) (input_start h)).
  { intros sel.
    set (tail := slice_from (get_input_content_from_selector fs sel) (input_start h)).
    destruct (Z.ltb_spec (len tail) 1) as [Hlt|Hge]; [discriminate |].
    intros Hk. split.
    - intros E. rewrite E in Hge. unfold len in Hge. simpl in Hge. lia.
    - destruct (input_limit h >? 0); congruence. }
  destruct (input_selector h) as [|p|l|t|]; try discriminate H;
    (split; [discriminate | apply Hgen; exact H]).
Qed.

(** Whatever the offset and the limit, negative ones included, the keys
    that [get_input] returns are never an empty list, are at most [limit]
    when the limit is positive, and are a run of consecutive keys of the
    resolved list. *)
Theorem get_input_nonempty_bounded_run :
  forall (Unit : Type) (fs : FS.node) (h : InputHandler Unit) (keys : list string),
    get_input fs h = Ok keys ->
    keys <> [] /\
    (0 < input_limit h -> len keys <= input_limit h) /\
    exists before after,
      get_input_content_from_selector fs (input_selector h) = before ++ keys ++ after.
Proof.
  intros Unit fs h keys H.
  destruct (get_input_ok_inv fs h H) as (_ & Htail & Hkeys).
  set (resolved := get_input_content_from_selector fs (input_selector h)) in *.
  set (tail := slice_from resolved (input_start h)) in *.
  assert (Hres : resolved = firstn (clamp (length resolved) (input_start h)) resolved ++ tail).
  { unfold tail, slice_from. symmetry. apply firstn_skipn. }
  destruct (Z.gtb_spec (input_limit h) 0) as [Hl|Hl].
  - split; [| split].
    + rewrite Hkeys. intros E. apply Htail. apply (slice_to_nil_iff tail Hl). exact E.
    + intros _. rewrite Hkeys, len_slice_to by assumption. lia.
    + exists (firstn (clamp (length resolved) (input_start h)) resolved),
             (skipn (clamp (length tail) (input_limit h)) tail).
      rewrite Hkeys. unfold slice_to. rewrite firstn_skipn. exact Hres.
  - split; [| split].
    + rewrite Hkeys. exact Htail.
    + intros Hpos. lia.
    + exists (firstn (clamp (length resolved) (input_start h)) resolved), [].
      rewrite Hkeys, app_nil_r. exact Hres.
Qed.

Lemma get_input_nonempty_bounded_run_witness :
  ["d/b.json"; "d/sub"] <> [] /\
  (0 < 2 -> len ["d/b.json"; "d/sub"] <= 2) /\
  exists before after,
    get_input_content_from_selector fs_example (SelStr "d")
      = before ++ ["d/b.json"; "d/sub"] ++ after.
Proof.
  exact (@get_input_nonempty_bounded_run nat fs_example
           (new_handler nat HandlerFS 2 1 (SelStr "d")) ["d/b.json"; "d/sub"] eq_refl).
Defined.

(** The last [k] items of a list, all of them when it has fewer. *)
Definition last_items {A} (k : nat) (l : list A) : list A :=
  skipn (length l - k) l.

(** The first [limit] items when the limit is positive, else all. *)
Definition limited {A} (limit : Z) (l : list A) : list A :=
  if limit >? 0 then firstn (Z.to_nat limit) l else l.

Lemma firstn_min_length {A} (k : nat) (l : list A) :
  firstn (Nat.min (length l) k) l = firstn k l.
Proof.
  destruct (Nat.le_gt_cases k (length l)) as [Hle|Hgt].
  - rewrite Nat.min_r by assumption. reflexivity.
  - rewrite Nat.min_l by lia. rewrite firstn_all, firstn_all2 by lia. reflexivity.
Qed.

(** A negative offset counts from the end: with [start = -k] the input
    is the last [k] resolved keys (all of them when there are fewer),
    cut by the limit, and the call raises only when nothing was resolved
    at all.  What it raises then is what the line that builds the
    empty-input error raises: that error, unless the selector is a tuple
    that the format of the message cannot take. *)
Theorem get_input_negative_start_takes_last :
  forall (Unit : Type) (fs : FS.node) (h : InputHandler Unit),
    input_start h < 0 ->
    input_selector h <> SelNone ->
    let resolved := get_input_content_from_selector fs (input_selector h) in
    get_input fs h =
    match resolved with
    | [] => Raise (empty_input_error (input_selector h))
    | _ => Ok (limited (input_limit h)
                       (last_items (Z.to_nat (- input_start h)) resolved))
    end.
Proof.
  intros Unit fs h Hs Hsel resolved.
  assert (Htail : slice_from resolved (input_start h)
                  = last_items (Z.to_nat (- input_start h)) resolved).
  { unfold slice_from, last_items, clamp.
    destruct (Z.ltb_spec (input_start h) 0); [| lia]. f_equal. lia. }
  assert (Hne : resolved <> [] ->
                last_items (Z.to_nat (- input_start h)) resolved <> []).
  { intros Hr E. apply (f_equal (@length string)) in E.
    unfold last_items in E. rewrite length_skipn in E. simpl in E.
    assert (length resolved <> 0%nat) by (destruct resolved; simpl; congruence).
    lia. }
  assert (Hgen :
    (if len (slice_from resolved (input_start h)) <? 1
     then Raise (empty_input_error (input_selector h))
     else if input_limit h >? 0
          then Ok (slice_to (slice_from resolved (input_start h)) (input_limit h))
          else Ok (slice_from resolved (input_start h))) =
    match resolved with
    | [] => Raise (empty_input_error (input_selector h))
    | _ => Ok (limited (input_limit h)
                       (last_items (Z.to_nat (- input_start h)) resolved))
    end).
  { rewrite Htail. destruct resolved as [|x r] eqn:Er.
    - reflexivity.
    - rewrite <- Er in *. assert (Hr : resolved <> []) by (rewrite Er; discriminate).
      specialize (Hne Hr).
      set (tail := last_items (Z.to_nat (- input_start h)) resolved) in *.
      destruct (Z.ltb_spec (len tail) 1) as [Hlt|Hge].
      + exfalso. apply Hne. apply length_zero_iff_nil. unfold len in Hlt. lia.
      + unfold limited. destruct (Z.gtb_spec (input_limit h) 0) as [Hl|Hl].
        * unfold slice_to. rewrite clamp_nonneg by lia.
          rewrite firstn_min_length. reflexivity.
        * reflexivity. }
  unfold get_input. subst resolved.
  destruct (input_selector h) as [|p|l|t|]; [congruence | | | |]; exact Hgen.
Qed.

Lemma get_input_negative_start_takes_last_witness :
  get_input fs_example (new_handler nat HandlerFS 1 (-2) (SelStr "d"))
    = Ok ["d/b.json"] /\
  get_input fs_example (new_handler nat HandlerFS 1 (-2) (SelStr "missing"))
    = Raise (ProcessingError (MsgSelectorEmpty (SelStr "missing"))) /\
  get_input fs_example (new_handler nat HandlerFS 1 (-2) (SelTuple []))
    = Raise (TypeError "not enough arguments for format string").
Proof.
  split; [| split].
  - exact (@get_input_negative_start_takes_last nat fs_example
             (new_handler nat HandlerFS 1 (-2) (SelStr "d"))
             ltac:(simpl; lia) ltac:(discriminate)).
  - exact (@get_input_negative_start_takes_last nat fs_example
             (new_handler nat HandlerFS 1 (-2) (SelStr "missing"))
             ltac:(simpl; lia) ltac:(discriminate)).
  - exact (@get_input_negative_start_takes_last nat fs_example
             (new_handler nat HandlerFS 1 (-2) (SelTuple []))
             ltac:(simpl; lia) ltac:(discriminate)).
Defined.

(** A list inside a list selector is resolved in place: nesting changes
    nothing. *)
Theorem nested_list_selector_flattens :
  forall (fs : FS.node) (l1 l2 l3 : list selector),
    get_input_content_from_selector fs (SelList (l1 ++ SelList l2 :: l3)) =
    get_input_content_from_selector fs (SelList (l1 ++ l2 ++ l3)).
Proof.
  intros fs l1 l2 l3.
  rewrite (selector_list_concat fs l1 (SelList l2 :: l3)).
  rewrite (selector_list_cons fs (SelList l2) l3).
  rewrite (selector_list_concat fs l1 (l2 ++ l3)).
  rewrite (selector_list_concat fs l2 l3).
  reflexivity.
Qed.
End InputHandlerFSMore.

(** ** The keys of a directory *)

Module DirectoryKeys.
Import PySeq PySeqFacts InputHandlerFS InputHandlerFSFacts.

Lemma cut_last_slash_star (s : string) :
  FS.cut_last_slash (s ++ "/*") = ((s ++ "/")%string, "*").
Proof.
  induction s as [|c r IH].
  - reflexivity.
  - change (FS.cut_last_slash (String c (r ++ "/*")) = (String c (r ++ "/"), "*")).
    simpl. rewrite IH.
    destruct r; reflexivity.
Qed.

Lemma rstrip_appended_slash (s : string) :
  s <> "" -> FS.ends_with_slash s = false ->
  FS.all_slashes (s ++ "/") = false /\ FS.rstrip_slashes (s ++ "/") = s.
Proof.
  induction s as [|c r IH]; intros Hne Hend; [congruence |].
  destruct r as [|c' r'].
  - simpl in Hend. simpl. unfold FS.slash in *. rewrite Hend. simpl.
    split; reflexivity.
  - destruct IH as [Hall Hstrip]; [discriminate | exact Hend |].
    change ((String c (String c' r') ++ "/")%string)
      with (String c (String c' r' ++ "/")).
    split.
    + change (Ascii.eqb c FS.slash && FS.all_slashes (String c' r' ++ "/") = false).
      rewrite Hall. apply andb_false_r.
    + change (FS.rstrip_slashes (String c (String c' r' ++ "/")))
        with (if Ascii.eqb c FS.slash && FS.all_slashes (String c' r' ++ "/")
              then EmptyString
              else String c (FS.rstrip_slashes (String c' r' ++ "/"))).
      rewrite Hall, andb_false_r, Hstrip. reflexivity.
Qed.

Lemma isdir_nonempty (fs : FS.node) (s : string) :
  FS.isdir fs s = true -> s <> "".
Proof.
  intros H E. subst s. discriminate H.
Qed.

(** What the pattern built for a directory [s] matches. *)
Lemma glob_of_directory (fs : FS.node) (s : string) :
  s <> "" -> FS.ends_with_slash s = false ->
  FS.glob fs (s ++ dir_selector) =
  map (fun name => (s ++ "/" ++ name)%string)
      (filter (fun n => negb (FS.ishidden n)) (FS.listdir fs s)).
Proof.
  intros Hne Hend. unfold FS.glob, FS.os_path_split, dir_selector.
  rewrite cut_last_slash_star.
  destruct (rstrip_appended_slash Hne Hend) as [Hall Hstrip].
  rewrite Hall, Hstrip. simpl String.eqb.
  assert (Es : String.eqb s "" = false) by (apply String.eqb_neq; exact Hne).
  rewrite Es. apply map_ext. intros name.
  unfold FS.os_path_join. rewrite Es, Hend. reflexivity.
Qed.

(** For a directory named without a trailing slash and without a
    character that [glob] reads as a pattern, the keys are the paths
    [s/name] of the entries of that directory itself whose names do not
    start with a dot, sorted; nothing below a subdirectory and no hidden
    entry is among them. *)
Theorem directory_keys_are_sorted_visible_entries :
  forall (fs : FS.node) (s : string),
    FS.isdir fs s = true ->
    FS.ends_with_slash s = false ->
    FS.has_magic s = false ->
    let keys := get_input_content_from_selector fs (SelStr s) in
    Sorted str_le keys /\
    Permutation
      (map (fun name => (s ++ "/" ++ name)%string)
           (filter (fun n => negb (FS.ishidden n)) (FS.listdir fs s)))
      keys /\
    forall k, In k keys <->
              exists name, In name (FS.listdir fs s) /\
                           FS.ishidden name = false /\
                           k = (s ++ "/" ++ name)%string.
Proof.
  intros fs s Hdir Hend _ keys.
  destruct (selector_directory_sorted fs s Hdir) as [Hsorted Hperm].
  rewrite (@glob_of_directory fs s (@isdir_nonempty fs s Hdir) Hend) in Hperm.
  fold keys in Hsorted, Hperm.
  split; [exact Hsorted |]. split; [exact Hperm |].
  intros k. split.
  - intros Hk. apply (Permutation_in _ (Permutation_sym Hperm)) in Hk.
    apply in_map_iff in Hk. destruct Hk as (name & Hname & Hin).
    apply filter_In in Hin. destruct Hin as [Hin Hvis].
    exists name. split; [exact Hin |]. split; [| symmetry; exact Hname].
    apply negb_true_iff. exact Hvis.
  - intros (name & Hin & Hvis & ->).
    apply (Permutation_in _ Hperm). apply in_map_iff.
    exists name. split; [reflexivity |].
    apply filter_In. split; [exact Hin |]. apply negb_true_iff. exact Hvis.
Qed.

Lemma directory_keys_are_sorted_visible_entries_witness :
  Sorted str_le (get_input_content_from_selector fs_example (SelStr "d")) /\
  ~ In "d/.hidden" (get_input_content_from_selector fs_example (SelStr "d")).
Proof.
  destruct (@directory_keys_are_sorted_visible_entries fs_example "d"
              eq_refl eq_refl eq_refl) as (Hsorted & _ & Hin).
  split; [exact Hsorted |].
  intros Hk. apply Hin in Hk. destruct Hk as (name & _ & Hvis & Hname).
  injection Hname as Hname. subst name. discriminate Hvis.
Defined.
End DirectoryKeys.

(** ** More on the registry of steps *)

Section DictFacts.
Context {V : Type}.

Lemma dict_get_set_same (d : dict V) (k : string) (v : V) :
  dict_get (dict_set d k v) k = Some v.
Proof.
  induction d as [|[k' v'] r IH]; simpl.
  - rewrite String.eqb_refl. reflexivity.
  - destruct (String.eqb k' k) eqn:E; simpl; rewrite E; [reflexivity | exact IH].
Qed.

Lemma dict_get_set_other (d : dict V) (k k0 : string) (v : V) :
  k <> k0 -> dict_get (dict_set d k v) k0 = dict_get d k0.
Proof.
  intros Hne. induction d as [|[k' v'] r IH]; simpl.
  - apply String.eqb_neq in Hne. rewrite Hne. reflexivity.
  - destruct (String.eqb k' k) eqn:E; simpl.
    + apply String.eqb_eq in E. subst k'.
      apply String.eqb_neq in Hne. rewrite Hne. reflexivity.
    + destruct (String.eqb k' k0); [reflexivity | exact IH].
Qed.

Lemma dict_set_keys (d : dict V) (k : string) (v : V) :
  forall x, In x (map fst (dict_set d k v)) <-> In x (map fst d) \/ x = k.
Proof.
  induction d as [|[k' v'] r IH]; intros x; simpl.
  - intuition.
  - destruct (String.eqb k' k) eqn:E; simpl.
    + apply String.eqb_eq in E. subst k'. intuition.
    + rewrite IH. intuition.
Qed.

Lemma dict_set_NoDup (d : dict V) (k : string) (v : V) :
  NoDup (map fst d) -> NoDup (map fst (dict_set d k v)).
Proof.
  induction d as [|[k' v'] r IH]; intros Hnd; simpl.
  - constructor; [intros [] | constructor].
  - inversion Hnd as [|? ? Hnotin Hrest]; subst.
    destruct (String.eqb k' k) eqn:E; simpl.
    + constructor; assumption.
    + constructor; [| apply IH; exact Hrest].
      intros Hin. apply dict_set_keys in Hin. destruct Hin as [Hin|Heq].
      * apply Hnotin. exact Hin.
      * subst k'. rewrite String.eqb_refl in E. discriminate E.
Qed.
End DictFacts.

(** [c in s] for a character. *)
Fixpoint has_char (c : ascii) (s : string) : bool :=
  match s with
  | EmptyString => false
  | String c' r => Ascii.eqb c' c || has_char c r
  end.

(** The key under which a step package is registered. *)
Definition step_name (step_package : string) : string :=
  last (str_split "."%char step_package) "".

Lemma str_split_no_sep (sep : ascii) (s x : string) :
  In x (str_split sep s) -> has_char sep x = false.
Proof.
  revert x. induction s as [|c r IH]; intros x Hin; simpl in Hin.
  - destruct Hin as [<-|[]]. reflexivity.
  - destruct (Ascii.eqb c sep) eqn:E.
    + destruct Hin as [<-|Hin]; [reflexivity | apply IH; exact Hin].
    + destruct (str_split sep r) as [|y ys] eqn:Es.
      * destruct Hin as [<-|[]]. simpl. rewrite E. reflexivity.
      * destruct Hin as [<-|Hin].
        -- simpl. rewrite E. simpl. apply IH. left. reflexivity.
        -- apply IH. right. exact Hin.
Qed.

Lemma str_split_not_nil (sep : ascii) (s : string) : str_split sep s <> [].
Proof.
  destruct s as [|c r]; simpl; [discriminate |].
  destruct (Ascii.eqb c sep); [discriminate |].
  destruct (str_split sep r); discriminate.
Qed.

Lemma last_in {A} (l : list A) (d : A) : l <> [] -> In (last l d) l.
Proof.
  induction l as [|x r IH]; intros Hne; [congruence |].
  destruct r as [|y r']; [left; reflexivity |].
  right. apply IH. discriminate.
Qed.

Lemma step_name_no_dot (step_package : string) :
  has_char "."%char (step_name step_package) = false.
Proof.
  apply str_split_no_sep with (s := step_package).
  apply last_in. apply str_split_not_nil.
Qed.

Section RegistryMore.
Variables Unit Step Sink World : Type.
Variable PROCESSING_STEPS : list string.
Variable import_module : string -> module_desc Step.

Notation state := (state Unit Step Sink World).
Notation get_available_processing_steps :=
  (@get_available_processing_steps Unit Step Sink World PROCESSING_STEPS import_module).
Notation set_processing_steps :=
  (@set_processing_steps Unit Step Sink World PROCESSING_STEPS import_module).
Notation load_all := (load_all import_module).
Notation registry_after := (registry_after PROCESSING_STEPS import_module).

Implicit Types s : state.

Lemma registry_after_call s :
  available_processing_steps (cp (fst (get_available_processing_steps s)))
  = Some (fst (registry_after (available_processing_steps (cp s)))).
Proof.
  rewrite get_available_processing_steps_eq.
  destruct (registry_after (available_processing_steps (cp s))). reflexivity.
Qed.

(** The registry is built by the first call only.  A later call returns
    what the controller holds and changes nothing, and this also after a
    first call that raised half way: then the steps loaded before the
    failure are returned and no error is raised again. *)
Theorem registry_is_built_once :
  forall s,
    let s1 := fst (get_available_processing_steps s) in
    get_available_processing_steps s1 = (s1, Ok (registry (cp s1))).
Proof.
  intros s s1.
  pose proof (registry_after_call s) as Ha. fold s1 in Ha.
  rewrite get_available_processing_steps_eq, Ha. unfold registry. simpl.
  rewrite Ha. destruct s1 as [c w]. destruct c. simpl in *. subst. reflexivity.
Qed.

Lemma load_all_keys (pkgs : list string) (d : dict Step) :
  (NoDup (map fst d) -> NoDup (map fst (fst (load_all pkgs d)))) /\
  forall k, In k (map fst (fst (load_all pkgs d))) ->
            In k (map fst d) \/ exists pkg, In pkg pkgs /\ k = step_name pkg.
Proof.
  revert d. induction pkgs as [|pkg rest IH]; intros d; simpl.
  - split; [tauto | intros k H; left; exact H].
  - destruct (import_module pkg) as [e| | |st]; simpl;
      try (split; [tauto | intros k H; left; exact H]).
    destruct (IH (dict_set d (step_name pkg) st)) as [Hnd Hkeys].
    fold (step_name pkg). split.
    + intros H. apply Hnd. apply dict_set_NoDup. exact H.
    + intros k Hk. destruct (Hkeys k Hk) as [Hin|(q & Hq & Hkq)].
      * apply dict_set_keys in Hin. destruct Hin as [Hin|Hkp].
        -- left. exact Hin.
        -- right. exists pkg. split; [left; reflexivity | exact Hkp].
      * right. exists q. split; [right; exact Hq | exact Hkq].
Qed.

(** A registry built from the settings has one entry per step name, and
    every name is the last dotted component of a configured package, so
    that no name contains a dot. *)
Theorem registry_keys_are_distinct_package_suffixes :
  forall s,
    available_processing_steps (cp s) = None ->
    let reg := registry (cp (fst (get_available_processing_steps s))) in
    NoDup (map fst reg) /\
    forall k, In k (map fst reg) ->
              (exists pkg, In pkg PROCESSING_STEPS /\ k = step_name pkg) /\
              has_char "."%char k = false.
Proof.
  intros s Hnone reg.
  assert (Hreg : reg = fst (load_all PROCESSING_STEPS [])).
  { unfold reg, registry. rewrite registry_after_call, Hnone. simpl.
    destruct (load_all PROCESSING_STEPS []). reflexivity. }
  rewrite Hreg.
  destruct (load_all_keys PROCESSING_STEPS []) as [Hnd Hkeys].
  split; [apply Hnd; constructor |].
  intros k Hk. destruct (Hkeys k Hk) as [[]|(pkg & Hpkg & Hkp)].
  subst k.
  split; [exists pkg; split; [exact Hpkg | reflexivity] | apply step_name_no_dot].
Qed.

Lemma load_all_other_names (pkgs : list string) (d d' : dict Step) (k : string) :
  load_all pkgs d = (d', Ok tt) ->
  (forall q, In q pkgs -> step_name q <> k) ->
  dict_get d' k = dict_get d k.
Proof.
  revert d. induction pkgs as [|pkg rest IH]; intros d Hload Hnames; simpl in Hload.
  - injection Hload as <-. reflexivity.
  - destruct (import_module pkg) as [e| | |st]; try discriminate Hload.
    fold (step_name pkg) in Hload.
    rewrite (IH _ Hload) by (intros q Hq; apply Hnames; right; exact Hq).
    apply dict_get_set_other. apply Hnames. left. reflexivity.
Qed.

Lemma load_all_last_wins (l1 l2 : list string) (pkg : string) (st : Step)
      (d d' : dict Step) :
  load_all (l1 ++ pkg :: l2) d = (d', Ok tt) ->
  import_module pkg = HasProcessingStep st ->
  (forall q, In q l2 -> step_name q <> step_name pkg) ->
  dict_get d' (step_name pkg) = Some st.
Proof.
  revert d. induction l1 as [|p r IH]; intros d Hload Himp Hl2; simpl in Hload.
  - rewrite Himp in Hload. fold (step_name pkg) in Hload.
    rewrite (load_all_other_names _ _ Hload Hl2). apply dict_get_set_same.
  - destruct (import_module p) as [e| | |st']; try discriminate Hload.
    apply (IH _ Hload Himp Hl2).
Qed.

(** When two configured packages end in the same name, the registry
    holds the step of the one configured last. *)
Theorem last_package_of_a_name_is_registered :
  forall s s1 (reg : dict Step) (l1 l2 : list string) (pkg : string) (st : Step),
    available_processing_steps (cp s) = None ->
    get_available_processing_steps s = (s1, Ok reg) ->
    PROCESSING_STEPS = l1 ++ pkg :: l2 ->
    import_module pkg = HasProcessingStep st ->
    (forall q, In q l2 -> step_name q <> step_name pkg) ->
    dict_get reg (step_name pkg) = Some st.
Proof.
  intros s s1 reg l1 l2 pkg st Hnone Hget Hsplit Himp Hl2.
  rewrite get_available_processing_steps_eq, Hnone in Hget. simpl in Hget.
  destruct (load_all PROCESSING_STEPS []) as [d r] eqn:Hload.
  destruct r as [[]|e]; [| discriminate Hget].
  injection Hget as _ Hreg. subst reg.
  rewrite Hsplit in Hload. apply (load_all_last_wins _ _ _ Hload Himp Hl2).
Qed.

End RegistryMore.

(** Settings in which two packages end in the same name, and settings
    with a package that has no [ProcessingStep]; a step is known by the
    path of its package. *)
Module RegistryDemo.

Definition import_by_path (pkg : string) : module_desc string :=
  if String.eqb pkg "steps.bad" then NoProcessingStep else HasProcessingStep pkg.

Definition settings_twice : list string := ["old.refs"; "steps.court"; "new.refs"].

Definition fresh : state string string string unit := mkState init tt.


Lemma registry_keys_are_distinct_package_suffixes_witness :
  let reg := registry (cp (fst (get_available_processing_steps
                                  settings_twice import_by_path fresh))) in
  map fst reg = ["refs"; "court"] /\ NoDup (map fst reg).
Proof.
  split; [reflexivity |].
  exact (proj1 (@registry_keys_are_distinct_package_suffixes
                  string string string unit settings_twice import_by_path
                  fresh eq_refl)).
Defined.

Lemma last_package_of_a_name_is_registered_witness :
  dict_get [("refs", "new.refs"); ("court", "steps.court")] (step_name "new.refs")
  = Some "new.refs".
Proof.
  apply (@last_package_of_a_name_is_registered
           string string string unit settings_twice import_by_path fresh
           (fst (get_available_processing_steps settings_twice import_by_path fresh))
           [("refs", "new.refs"); ("court", "steps.court")]
           ["old.refs"; "steps.court"] [] "new.refs" "new.refs"
           eq_refl eq_refl eq_refl eq_refl).
  intros q [].
Defined.

End RegistryDemo.

(** ** More on the application of steps *)

Section StepsMore.
Variables Unit Step Sink World : Type.
Variable step_process : Step -> Unit -> World -> World * result Unit.

Notation state := (state Unit Step Sink World).
Notation call_step := (call_step (Sink := Sink) step_process).
Notation call_steps := (call_steps (Sink := Sink) step_process).
Notation call_processing_steps := (call_processing_steps (Sink := Sink) step_process).

Implicit Types s : state.

Lemma call_steps_appends_bounded (steps : list Step) (u : Unit) s :
  exists errs,
    cp (fst (call_steps steps u s)) =
      set_processing_errors (processing_errors (cp s) ++ errs) (cp s) /\
    (length errs <= length steps)%nat /\
    Forall (fun e => is_ProcessingError e = true) errs.
Proof.
  revert u s. induction steps as [|x r IH]; intros u s; simpl.
  - exists []. rewrite app_nil_r. split; [destruct (cp s); reflexivity |].
    split; [apply Nat.le_refl | constructor].
  - unfold bind, call_step, try_except, lift_world.
    destruct (step_process x u (world s)) as [w [u'|e]]; simpl.
    + destruct (IH u' (mkState (cp s) w)) as (errs & Heq & Hlen & Hall).
      exists errs. split; [exact Heq |]. split; [lia | exact Hall].
    + destruct (is_ProcessingError e) eqn:Ee; simpl.
      * destruct (IH u (mkState (set_processing_errors
                                   (processing_errors (cp s) ++ [e]) (cp s)) w))
          as (errs & Heq & Hlen & Hall).
        exists (e :: errs). simpl in Heq. split.
        -- rewrite Heq. change (e :: errs) with ([e] ++ errs).
           rewrite app_assoc. destruct (cp s); reflexivity.
        -- split; [simpl; lia | constructor; assumption].
      * exists []. rewrite app_nil_r. split; [destruct (cp s); reflexivity |].
        split; [simpl; lia | constructor].
Qed.

(** A call of [call_processing_steps] changes nothing in the controller
    but the list of processing errors, to which it appends at most one
    error per selected step, each of them a [ProcessingError]. *)
Theorem call_processing_steps_appends_at_most_one_error_per_step :
  forall (u : Unit) s,
    exists errs,
      cp (fst (call_processing_steps u s)) =
        set_processing_errors (processing_errors (cp s) ++ errs) (cp s) /\
      (length errs <= length (processing_steps (cp s)))%nat /\
      Forall (fun e => is_ProcessingError e = true) errs.
Proof.
  intros u s. apply call_steps_appends_bounded.
Qed.

(** An exception that is not a [ProcessingError] ends the call: it is
    raised to the caller as it is, it is not recorded, and the steps that
    come after the one that raised it are not applied. *)
Theorem foreign_exception_of_a_step_propagates :
  forall (before after : list Step) (step : Step) (u u_i : Unit) s s_i
         (w : World) (e : exn),
    processing_steps (cp s) = before ++ step :: after ->
    call_steps before u s = (s_i, Ok u_i) ->
    step_process step u_i (world s_i) = (w, Raise e) ->
    is_ProcessingError e = false ->
    call_processing_steps u s = (mkState (cp s_i) w, Raise e).
Proof.
  intros before after step u u_i s s_i w e Hsteps Hbefore Hstep He.
  change (call_processing_steps u s) with (call_steps (processing_steps (cp s)) u s).
  rewrite Hsteps.
  rewrite (call_steps_at step_process before after step u s Hbefore).
  apply bind_raise. apply call_step_propagates; assumption.
Qed.

(** Applying the steps [l1 ++ l2] is applying [l1] and then, if that
    call returned, [l2] to its result, in the state it left. *)
Theorem selected_steps_compose :
  forall (l1 l2 : list Step) (u : Unit) s,
    processing_steps (cp s) = l1 ++ l2 ->
    call_processing_steps u s = bind (call_steps l1 u) (call_steps l2) s.
Proof.
  intros l1 l2 u s Hsteps.
  change (call_processing_steps u s) with (call_steps (processing_steps (cp s)) u s).
  rewrite Hsteps. apply call_steps_app.
Qed.
End StepsMore.

(** Steps among which one raises something else than a
    [ProcessingError]. *)
Module StepsDemo.

Definition step_process (step content : string) (w : unit) : unit * result string :=
  (tt,
   if String.eqb step "crash" then Raise (ValueError "crash")
   else if String.eqb step "broken" then Raise (ProcessingError (MsgText "step failed"))
   else Ok (content ++ "+" ++ step)%string).

Definition selected (steps : list string) : state string string string unit :=
  mkState (set_processing_steps_attr steps init) tt.

Lemma foreign_exception_of_a_step_propagates_witness :
  call_processing_steps step_process "doc" (selected ["broken"; "crash"; "late"])
  = (mkState (set_processing_errors [ProcessingError (MsgText "step failed")]
                (cp (selected ["broken"; "crash"; "late"]))) tt,
     Raise (ValueError "crash")).
Proof.
  exact (@foreign_exception_of_a_step_propagates
           string string string unit step_process
           ["broken"] ["late"] "crash" "doc" "doc"
           (selected ["broken"; "crash"; "late"])
           (mkState (set_processing_errors [ProcessingError (MsgText "step failed")]
                       (cp (selected ["broken"; "crash"; "late"]))) tt)
           tt (ValueError "crash") eq_refl eq_refl eq_refl eq_refl).
Defined.

Lemma selected_steps_compose_witness :
  call_processing_steps step_process "doc" (selected ["a"; "b"])
  = (selected ["a"; "b"], Ok "doc+a+b").
Proof.
  rewrite (@selected_steps_compose string string string unit step_process
             ["a"] ["b"] "doc" (selected ["a"; "b"]) eq_refl).
  reflexivity.
Defined.
End StepsDemo.

(** ** More on [process] *)

(** The methods that the base classes leave to their subclasses:
    [InputHandler.handle_input], [ContentProcessor.process_content] and
    [ContentProcessor.empty_content] raise [NotImplementedError]. *)
Definition InputHandler_handle_input {Unit} (h : InputHandler Unit) (k : key Unit)
           {World} (w : World) : InputHandler Unit * World * result unit :=
  (h, w, Raise (NotImplementedError "")).

Definition ContentProcessor_process_content {Unit Step Sink World}
  : M Unit Step Sink World unit :=
  raise (NotImplementedError "Child class instead to implement this method.").

Definition ContentProcessor_empty_content {Unit Step Sink World}
  : M Unit Step Sink World unit :=
  raise (NotImplementedError "").

Section ProcessMore.
Variables Unit Step Sink World : Type.
Variable sink_process : Sink -> list Unit -> World -> World * result unit.
Variable handle_input :
  InputHandler Unit -> key Unit -> World -> InputHandler Unit * World * result unit.
Variable get_input_db : InputHandler Unit -> World -> result (list (key Unit)).
Variable world_fs : World -> FS.node.
Variable process_content : M Unit Step Sink World unit.

Notation state := (state Unit Step Sink World).
Notation pre_process_one := (@pre_process_one Unit Step Sink World handle_input).
Notation pre_process :=
  (@pre_process Unit Step Sink World handle_input get_input_db world_fs).
Notation post_process := (@post_process Unit Step Sink World sink_process).
Notation process :=
  (@process Unit Step Sink World sink_process handle_input get_input_db
            world_fs process_content).
Notation input_keys := (input_keys get_input_db world_fs).

Implicit Types s : state.

Lemma pre_process_without_handler s :
  input_handler (cp s) = None ->
  pre_process s =
  (s, Raise (AttributeError
               "'NoneType' object has no attribute 'pre_processed_content'")).
Proof.
  intros Hh. unfold pre_process. apply bind_raise.
  unfold the_input_handler, bind, get_cp. rewrite Hh. reflexivity.
Qed.

(** [process] on a controller that was given no input handler raises
    [AttributeError] where it assigns the queue of the handler, with the
    message Python gives for the attribute [pre_processed_content] of
    [None]; all it has done by then is to empty the two queues. *)
Theorem process_without_input_handler :
  forall s,
    input_handler (cp s) = None ->
    process s =
    (after_reset s,
     Raise (AttributeError
              "'NoneType' object has no attribute 'pre_processed_content'")).
Proof.
  intros s Hh. rewrite process_after_reset. apply bind_raise.
  apply pre_process_without_handler. exact Hh.
Qed.

Definition handler_reset (h : InputHandler Unit) s : state :=
  mkState (set_input_handler_attr (Some (with_handler_queue h [])) (cp (after_reset s)))
          (world s).

Lemma pre_process_get_input_raises (h : InputHandler Unit) (e : exn) s :
  input_handler (cp s) = Some h ->
  input_keys (with_handler_queue h []) (world s) = Raise e ->
  pre_process s =
  (mkState (set_input_handler_attr (Some (with_handler_queue h [])) (cp s)) (world s),
   Raise e).
Proof.
  intros Hh Hkeys. unfold pre_process.
  erewrite bind_ok by (apply the_input_handler_eq; exact Hh).
  erewrite bind_ok by (apply update_eq).
  erewrite bind_ok by (apply the_input_handler_eq; reflexivity).
  apply bind_raise. unfold get_input. simpl. rewrite Hkeys. reflexivity.
Qed.

(** An error raised by [get_input], the one for an empty input among
    them, is not caught by [process]: it is raised to the caller, it is
    in no error list, and neither [handle_input] nor [process_content]
    nor a sink has run. *)
Theorem process_raises_the_error_of_get_input :
  forall (h : InputHandler Unit) (e : exn) s,
    input_handler (cp s) = Some h ->
    input_keys (with_handler_queue h []) (world s) = Raise e ->
    process s = (handler_reset h s, Raise e).
Proof.
  intros h e s Hh Hkeys. rewrite process_after_reset. apply bind_raise.
  apply (@pre_process_get_input_raises h e (after_reset s)); assumption.
Qed.

Lemma parsed_or_failed (parse : key Unit -> Unit + message) (keys : list (key Unit)) :
  (length (parsed_units parse keys) + length (parse_errors parse keys))%nat
  = length keys.
Proof.
  unfold parsed_units, parse_errors.
  induction keys as [|k r IH]; simpl; [reflexivity |].
  rewrite !length_app. destruct (parse k); simpl; lia.
Qed.

(** With a handler that keeps the contract of [handle_input], every key
    is accounted for once: the units queued and the errors added to the
    pre-processing errors are together as many as the keys. *)
Theorem every_key_is_a_unit_or_an_error :
  forall (parse : key Unit -> Unit + message) (h : InputHandler Unit)
         (keys : list (key Unit)) s,
    keeps_contract handle_input parse ->
    input_handler (cp s) = Some h ->
    input_keys (with_handler_queue h []) (world s) = Ok keys ->
    let s1 := fst (pre_process (after_reset s)) in
    (length (pre_processed_content (cp s1)) + length (pre_processing_errors (cp s1)))%nat
    = (length keys + length (pre_processing_errors (cp s)))%nat.
Proof.
  intros parse h keys s Hc Hh Hkeys s1.
  assert (Hpre : pre_process (after_reset s)
                 = (after_pre_process handle_input parse h keys (after_reset s), Ok tt)).
  { apply pre_process_eq; assumption. }
  unfold s1. rewrite Hpre. simpl. rewrite length_app.
  pose proof (parsed_or_failed parse keys). lia.
Qed.
End ProcessMore.

Lemma get_input_ok_not_nil {Unit} (fs : FS.node) (h : InputHandler Unit)
      (keys : list string) :
  InputHandlerFS.get_input fs h = Ok keys -> keys <> [].
Proof.
  intros H. destruct (InputHandlerFSMore.get_input_ok_inv fs h H) as (_ & Htail & Hkeys).
  rewrite Hkeys. destruct (Z.gtb_spec (input_limit h) 0) as [Hl|Hl].
  - intros E. apply Htail.
    apply (InputHandlerFSFacts.slice_to_nil_iff _ Hl). exact E.
  - exact Htail.
Qed.

(** ** The base classes *)

Section BaseClasses.
Variables Unit Step Sink World : Type.
Variable sink_process : Sink -> list Unit -> World -> World * result unit.
Variable handle_input :
  InputHandler Unit -> key Unit -> World -> InputHandler Unit * World * result unit.
Variable get_input_db : InputHandler Unit -> World -> result (list (key Unit)).
Variable world_fs : World -> FS.node.
Variable process_content : M Unit Step Sink World unit.

Notation state := (state Unit Step Sink World).
Notation base_pre_process :=
  (@pre_process Unit Step Sink World (fun h k w => InputHandler_handle_input h k w)
                get_input_db world_fs).
Notation process_with_base_handler :=
  (@process Unit Step Sink World sink_process
            (fun h k w => InputHandler_handle_input h k w)
            get_input_db world_fs process_content).
Notation process_with_base_controller :=
  (@process Unit Step Sink World sink_process handle_input get_input_db world_fs
            ContentProcessor_process_content).
Notation input_keys := (input_keys get_input_db world_fs).

Implicit Types s : state.

Lemma base_pre_process_raises (h : InputHandler Unit) (k : key Unit)
      (rest : list (key Unit)) s :
  input_handler (cp s) = Some h ->
  input_keys (with_handler_queue h []) (world s) = Ok (k :: rest) ->
  base_pre_process s =
  (mkState (set_input_handler_attr (Some (with_handler_queue h [])) (cp s)) (world s),
   Raise (NotImplementedError "")).
Proof.
  intros Hh Hkeys. unfold pre_process.
  erewrite bind_ok by (apply the_input_handler_eq; exact Hh).
  erewrite bind_ok by (apply update_eq).
  erewrite bind_ok by (apply the_input_handler_eq; reflexivity).
  erewrite bind_ok by (apply get_input_eq; exact Hkeys).
  apply bind_raise. simpl. apply bind_raise.
  unfold pre_process_one, try_except, call_handle_input, bind, the_input_handler,
    get_cp, ret, InputHandler_handle_input.
  simpl. destruct (cp s); reflexivity.
Qed.

(** A file-system handler that does not define [handle_input] cannot
    complete a run: [process] raises, be it for the input, which is
    never an empty list of keys, or with [NotImplementedError] at the
    first key; the world is as it was and no pre-processing error is
    recorded. *)
Theorem base_handler_never_completes_a_run :
  forall s,
    (forall h, input_handler (cp s) = Some h -> handler_class h = HandlerFS) ->
    exists e,
      snd (process_with_base_handler s) = Raise e /\
      world (fst (process_with_base_handler s)) = world s /\
      pre_processing_errors (cp (fst (process_with_base_handler s)))
        = pre_processing_errors (cp s).
Proof.
  intros s Hfs. destruct (input_handler (cp s)) as [h|] eqn:Hh.
  - destruct (input_keys (with_handler_queue h []) (world s)) as [keys|e] eqn:Hkeys.
    + assert (Hcons : exists k rest, keys = k :: rest).
      { unfold input_keys in Hkeys. simpl in Hkeys.
        rewrite (Hfs h eq_refl) in Hkeys.
        destruct (InputHandlerFS.get_input (world_fs (world s)) (with_handler_queue h []))
          as [keys0|e0] eqn:Hfsin; simpl in Hkeys; [| discriminate Hkeys].
        injection Hkeys as <-.
        pose proof (get_input_ok_not_nil _ _ Hfsin) as Hne.
        destruct keys0 as [|k0 r0]; [congruence |].
        exists (PathKey k0), (map PathKey r0). reflexivity. }
      destruct Hcons as (k & rest & ->).
      exists (NotImplementedError "").
      rewrite process_after_reset.
      rewrite (bind_raise _ _ _ (@base_pre_process_raises h k rest (after_reset s) Hh Hkeys)).
      simpl. repeat split.
    + exists e.
      rewrite process_after_reset.
      rewrite (bind_raise _ _ _
                 (@pre_process_get_input_raises Unit Step Sink World _ get_input_db
                    world_fs h e (after_reset s) Hh Hkeys)).
      simpl. repeat split.
  - eexists.
    rewrite process_after_reset.
    rewrite (bind_raise _ _ _
               (@pre_process_without_handler Unit Step Sink World _ get_input_db
                  world_fs (after_reset s) Hh)).
    simpl. repeat split.
Qed.

(** A controller that does not define [process_content] never reaches
    post-processing: whenever the input stage returns, [process] raises
    [NotImplementedError], and the run ends in the state the input stage
    left, no sink having been called. *)
Theorem base_controller_never_reaches_the_sinks :
  forall s,
    exists e,
      process_with_base_controller s =
      (fst (@pre_process Unit Step Sink World handle_input get_input_db world_fs
              (after_reset s)), Raise e).
Proof.
  intros s. rewrite process_after_reset. unfold bind at 1.
  destruct (pre_process handle_input get_input_db world_fs (after_reset s))
    as [s1 [[]|e]]; eexists; reflexivity.
Qed.
End BaseClasses.

Module ProcessDemo.
Import Demo.

(** The controller of [run_state] with a handler on a path that does not
    exist. *)
Definition nothing_to_read : state string string string World :=
  mkState
    (set_input_handler_attr
       (Some (new_handler string HandlerFS 20 0 (SelStr "missing")))
       (cp run_state))
    world0.

Lemma process_without_input_handler_witness :
  process state0 =
  (after_reset state0,
   Raise (AttributeError
            "'NoneType' object has no attribute 'pre_processed_content'")).
Proof.
  exact (@process_without_input_handler string string string World
           sink_process handle_input get_input_db files process_content
           state0 eq_refl).
Defined.

Lemma process_raises_the_error_of_get_input_witness :
  process nothing_to_read =
  (handler_reset (new_handler string HandlerFS 20 0 (SelStr "missing")) nothing_to_read,
   Raise (ProcessingError (MsgSelectorEmpty (SelStr "missing")))).
Proof.
  exact (@process_raises_the_error_of_get_input string string string World
           sink_process handle_input get_input_db files process_content
           (new_handler string HandlerFS 20 0 (SelStr "missing"))
           (ProcessingError (MsgSelectorEmpty (SelStr "missing")))
           nothing_to_read eq_refl eq_refl).
Defined.

Lemma every_key_is_a_unit_or_an_error_witness :
  let s1 := fst (pre_process handle_input get_input_db files (after_reset run_state)) in
  (length (pre_processed_content (cp s1)) + length (pre_processing_errors (cp s1)))%nat
  = (3 + 0)%nat.
Proof.
  exact (@every_key_is_a_unit_or_an_error string string string World
           handle_input get_input_db files parse
           (new_handler string HandlerFS 20 0 (SelStr "d"))
           [PathKey "d/a.json"; PathKey "d/b.json"; PathKey "d/sub"]
           run_state DemoFacts.handler_keeps_contract eq_refl eq_refl).
Defined.

End ProcessDemo.

Module BaseDemo.

(** [process] of the concrete pipeline, with the handler of the base
    class in place of its own. *)
Definition process_with_base_handler
  : M string string string Demo.World unit :=
  process Demo.sink_process (fun h k w => InputHandler_handle_input h k w)
          Demo.get_input_db Demo.files Demo.process_content.

Lemma base_handler_never_completes_a_run_witness :
  exists e,
    snd (process_with_base_handler Demo.run_state) = Raise e /\
    world (fst (process_with_base_handler Demo.run_state)) = world Demo.run_state /\
    pre_processing_errors (cp (fst (process_with_base_handler Demo.run_state)))
    = pre_processing_errors (cp Demo.run_state).
Proof.
  apply (@base_handler_never_completes_a_run string string string Demo.World
           Demo.sink_process Demo.get_input_db Demo.files Demo.process_content
           Demo.run_state).
  intros h Hh. injection Hh as <-. reflexivity.
Defined.
End BaseDemo.

(** ** More on the command and its arguments *)

Section HandleMore.
Variables Unit Step Sink World : Type.
Variable sink_process : Sink -> list Unit -> World -> World * result unit.
Variable handle_input :
  InputHandler Unit -> key Unit -> World -> InputHandler Unit * World * result unit.
Variable get_input_db : InputHandler Unit -> World -> result (list (key Unit)).
Variable world_fs : World -> FS.node.
Variable process_content : M Unit Step Sink World unit.
Variable PROCESSING_STEPS : list string.
Variable import_module : string -> module_desc Step.

Notation state := (state Unit Step Sink World).
Notation M := (M Unit Step Sink World).
Notation get_available_processing_steps :=
  (@get_available_processing_steps Unit Step Sink World PROCESSING_STEPS import_module).
Notation set_processing_steps :=
  (@set_processing_steps Unit Step Sink World PROCESSING_STEPS import_module).
Notation registry_after := (registry_after PROCESSING_STEPS import_module).
Notation process :=
  (@process Unit Step Sink World sink_process handle_input get_input_db
            world_fs process_content).
Notation handle_with empty_content :=
  (@handle Unit Step Sink World sink_process handle_input get_input_db
           world_fs process_content empty_content PROCESSING_STEPS import_module).

Implicit Types (s : state) (o : options).

(** The expression that [set_parser_arguments] gives to the parser as
    the [choices] of the argument [step]: the names of the registry, in
    its order, and ['all']. *)
Definition step_choices : M (list string) :=
  bind get_available_processing_steps
       (fun available => ret (map fst available ++ ["all"])).

(** A value passes the parser when it is one of the choices. *)
Definition accepted (choices : list string) (a : step_arg) : Prop :=
  forall n, In n (as_list a) -> In n choices.

Lemma dict_get_of_key {V} (d : dict V) (k : string) :
  In k (map fst d) -> exists v, dict_get d k = Some v.
Proof.
  induction d as [|[k' v'] r IH]; intros Hin; simpl in *; [contradiction |].
  destruct (String.eqb k' k) eqn:E.
  - exists v'. reflexivity.
  - destruct Hin as [Hk|Hin]; [| apply IH; exact Hin].
    subst k'. rewrite String.eqb_refl in E. discriminate E.
Qed.

Lemma known_names_have_steps (reg : dict Step) (names : list string) :
  (forall n, In n names -> In n (map fst reg)) ->
  exists steps, map (dict_get reg) names = map Some steps.
Proof.
  induction names as [|n r IH]; intros Hin.
  - exists []. reflexivity.
  - destruct IH as [steps Hsteps]; [intros m Hm; apply Hin; right; exact Hm |].
    destruct (@dict_get_of_key _ reg n) as [st Hst]; [apply Hin; left; reflexivity |].
    exists (st :: steps). simpl. rewrite Hst, Hsteps. reflexivity.
Qed.

Lemma str_in_false (x : string) (l : list string) :
  str_in x l = false -> ~ In x l.
Proof.
  unfold str_in. intros H Hin.
  assert (existsb (String.eqb x) l = true) as Ht.
  { apply existsb_exists. exists x. split; [exact Hin | apply String.eqb_refl]. }
  congruence.
Qed.

Lemma get_available_ok (reg : dict Step) s s1 :
  get_available_processing_steps s = (s1, Ok reg) ->
  available_processing_steps (cp s1) = Some reg.
Proof.
  rewrite get_available_processing_steps_eq.
  unfold registry_after.
  destruct (available_processing_steps (cp s)) as [d|].
  - intros H. injection H as <- <-. reflexivity.
  - destruct (load_all import_module PROCESSING_STEPS []) as [d [[]|e]];
      intros H; [| discriminate H].
    injection H as <- <-. reflexivity.
Qed.

(** Every value of [step] that passes the choices given to the parser
    configures: [set_processing_steps] does not raise on it. *)
Theorem accepted_steps_configure :
  forall (a : step_arg) (choices : list string) s s1,
    step_choices s = (s1, Ok choices) ->
    accepted choices a ->
    exists r, snd (set_processing_steps a s1) = Ok r.
Proof.
  intros a choices s s1 Hchoices Hacc.
  unfold step_choices, bind in Hchoices.
  destruct (get_available_processing_steps s) as [s' [reg|e]] eqn:Hget;
    [| discriminate Hchoices].
  unfold ret in Hchoices. injection Hchoices as Hs1 Hch. subst s' choices.
  pose proof (get_available_ok _ Hget) as Hreg.
  assert (Hafter : registry_after (available_processing_steps (cp s1)) = (reg, Ok reg)).
  { rewrite Hreg. reflexivity. }
  destruct (str_in "all" (as_list a)) eqn:Hall.
  - rewrite (@set_processing_steps_all Unit Step Sink World PROCESSING_STEPS
               import_module a reg s1 Hafter Hall).
    eexists. reflexivity.
  - destruct (known_names_have_steps reg (as_list a)) as [steps Hsteps].
    { intros n Hn. specialize (Hacc n Hn). apply in_app_or in Hacc.
      destruct Hacc as [Hk|[Hk|[]]]; [exact Hk |].
      subst n. exfalso. apply (str_in_false _ _ Hall). exact Hn. }
    rewrite (@set_processing_steps_known Unit Step Sink World PROCESSING_STEPS
               import_module a reg steps s1 Hafter Hall Hsteps).
    eexists. reflexivity.
Qed.

Lemma handle_rejected_handler (empty_content : M unit) (e : exn) o s :
  make_handler (Unit := Unit) (Step := Step) (Sink := Sink) o s = (s, Raise e) ->
  handle_with empty_content o s = (s, Raise e).
Proof.
  intros He. unfold handle.
  erewrite bind_ok by reflexivity.
  apply bind_raise. exact He.
Qed.

(** A choice of input that cannot be served - a handler that is neither
    [fs] nor [db], or [fs] with a source other than [serializer] - makes
    the command raise [ValueError] at once: nothing of the controller has
    changed, and the requested steps have not been looked at. *)
Theorem unusable_input_choice_is_rejected_first :
  forall (empty_content : M unit) o s,
    (opt_input_handler o <> "fs" -> opt_input_handler o <> "db" ->
       handle_with empty_content o s =
       (s, Raise (ValueError ("Unsupported input handler: " ++ opt_input_handler o)))) /\
    (opt_input_handler o = "fs" -> opt_source o <> "serializer" ->
       handle_with empty_content o s =
       (s, Raise (ValueError "Mode not supported. Use openjur or serializer."))).
Proof.
  intros empty_content o s. split.
  - intros Hfs Hdb. apply handle_rejected_handler. unfold make_handler.
    apply String.eqb_neq in Hfs. apply String.eqb_neq in Hdb.
    rewrite Hfs, Hdb. reflexivity.
  - intros Hfs Hsrc. apply handle_rejected_handler. unfold make_handler.
    apply String.eqb_neq in Hsrc. rewrite Hfs, Hsrc. reflexivity.
Qed.

(** Without [--empty] the command never calls [empty_content]: what it
    does is the same whatever that method would do. *)
Theorem empty_content_is_called_on_request_only :
  forall (empty_content1 empty_content2 : M unit) o s,
    opt_empty o = false ->
    handle_with empty_content1 o s = handle_with empty_content2 o s.
Proof.
  intros ec1 ec2 o s Hempty. unfold handle. rewrite Hempty. reflexivity.
Qed.

Definition handler_set (h : InputHandler Unit) s : state :=
  mkState (set_input_handler_attr (Some h) (cp s)) (world s).

(** With a usable input and a request that configures, the command is
    the run of [process] - after [empty_content] when [--empty] is given
    - on the controller as configured: handler set, steps selected. *)
Theorem handle_processes_the_configured_controller :
  forall (empty_content : M unit) (h : InputHandler Unit)
         (r : option (list Step)) o s s_c,
    make_handler o s = (s, Ok h) ->
    set_processing_steps (opt_step o) (handler_set h s) = (s_c, Ok r) ->
    handle_with empty_content o s =
    bind (if opt_empty o then empty_content else ret tt)
         (fun _ => bind process (fun _ => ret tt)) s_c.
Proof.
  intros ec h r o s s_c Hh Hset. unfold handle.
  erewrite bind_ok by reflexivity.
  erewrite bind_ok by exact Hh.
  erewrite bind_ok by reflexivity.
  erewrite bind_ok by exact Hset.
  reflexivity.
Qed.

(** On a controller that does not define [empty_content], [--empty]
    ends the command with [NotImplementedError] once the configuration
    is done and before anything is processed. *)
Theorem empty_on_base_controller_aborts_before_process :
  forall (h : InputHandler Unit) (r : option (list Step)) o s s_c,
    opt_empty o = true ->
    make_handler o s = (s, Ok h) ->
    set_processing_steps (opt_step o) (handler_set h s) = (s_c, Ok r) ->
    handle_with ContentProcessor_empty_content o s =
    (s_c, Raise (NotImplementedError "")).
Proof.
  intros h r o s s_c Hempty Hh Hset. unfold handle.
  erewrite bind_ok by reflexivity.
  erewrite bind_ok by exact Hh.
  erewrite bind_ok by reflexivity.
  erewrite bind_ok by exact Hset.
  rewrite Hempty. reflexivity.
Qed.

(** With the handler [db] the command uses neither [--input] nor
    [--source] nor [--max-lines]: with the other options as they are,
    [--verbose] among them, any values for these three give the same
    run. *)
Theorem db_handler_ignores_input_and_source :
  forall (empty_content : M unit) (input : selector)
         (max_lines : Z) (source : string) o s,
    opt_input_handler o = "db" ->
    handle_with empty_content
      (mkOptions (opt_verbose o) (opt_step o) input (opt_input_handler o)
                 (opt_limit o) (opt_start o) max_lines source (opt_empty o)) s
    = handle_with empty_content o s.
Proof.
  intros ec input max_lines source o s Hdb.
  unfold handle, make_handler, set_options. simpl. rewrite Hdb. reflexivity.
Qed.
End HandleMore.

Module HandleDemo.

Notation handle_with empty_content :=
  (@handle string string string Demo.World Demo.sink_process Demo.handle_input
           Demo.get_input_db Demo.files Demo.process_content empty_content
           Demo.PROCESSING_STEPS Demo.import_module).

Definition db_options (steps : list string) : options :=
  mkOptions false (StepList steps) SelNone "db" 20 0 (-1) "serializer" false.

Lemma accepted_steps_configure_witness :
  exists r,
    snd (Demo.set_processing_steps (StepList ["extract_refs"; "broken"])
           (fst (step_choices Demo.PROCESSING_STEPS Demo.import_module Demo.state0)))
    = Ok r.
Proof.
  apply (@accepted_steps_configure string string string Demo.World
           Demo.PROCESSING_STEPS Demo.import_module
           (StepList ["extract_refs"; "broken"])
           ["assign_court"; "broken"; "extract_refs"; "all"]
           Demo.state0 _ eq_refl).
  intros n [<-|[<-|[]]]; simpl; tauto.
Defined.

Definition ftp_options : options :=
  mkOptions false (StepList ["nope"]) (SelStr "d") "ftp" 20 0 (-1) "serializer" false.

Definition openjur_options : options :=
  mkOptions false (StepList ["nope"]) (SelStr "d") "fs" 20 0 (-1) "openjur" false.

Lemma unusable_input_choice_is_rejected_first_witness :
  handle_with Demo.empty_content ftp_options Demo.state0
  = (Demo.state0, Raise (ValueError "Unsupported input handler: ftp")) /\
  handle_with Demo.empty_content openjur_options Demo.state0
  = (Demo.state0, Raise (ValueError "Mode not supported. Use openjur or serializer.")).
Proof.
  split.
  - exact (proj1 (@unusable_input_choice_is_rejected_first
                    string string string Demo.World Demo.sink_process
                    Demo.handle_input Demo.get_input_db Demo.files
                    Demo.process_content Demo.PROCESSING_STEPS Demo.import_module
                    Demo.empty_content ftp_options Demo.state0)
                 ltac:(discriminate) ltac:(discriminate)).
  - exact (proj2 (@unusable_input_choice_is_rejected_first
                    string string string Demo.World Demo.sink_process
                    Demo.handle_input Demo.get_input_db Demo.files
                    Demo.process_content Demo.PROCESSING_STEPS Demo.import_module
                    Demo.empty_content openjur_options Demo.state0)
                 eq_refl ltac:(discriminate)).
Defined.

Lemma empty_content_is_called_on_request_only_witness :
  handle_with ContentProcessor_empty_content (Demo.opts ["extract_refs"]) Demo.state0
  = handle_with Demo.empty_content (Demo.opts ["extract_refs"]) Demo.state0.
Proof.
  exact (@empty_content_is_called_on_request_only
           string string string Demo.World Demo.sink_process Demo.handle_input
           Demo.get_input_db Demo.files Demo.process_content Demo.PROCESSING_STEPS
           Demo.import_module ContentProcessor_empty_content Demo.empty_content
           (Demo.opts ["extract_refs"]) Demo.state0 eq_refl).
Defined.

Definition empty_options : options :=
  mkOptions false (StepList ["extract_refs"]) (SelStr "d") "fs" 20 0 (-1)
            "serializer" true.

Lemma empty_on_base_controller_aborts_before_process_witness :
  handle_with ContentProcessor_empty_content empty_options Demo.state0
  = (configured_with Demo.registry0 ["extract_refs"]
       (handler_set (new_handler string HandlerFS 20 0 (SelStr "d")) Demo.state0),
     Raise (NotImplementedError "")).
Proof.
  exact (@empty_on_base_controller_aborts_before_process
           string string string Demo.World Demo.sink_process Demo.handle_input
           Demo.get_input_db Demo.files Demo.process_content Demo.PROCESSING_STEPS
           Demo.import_module (new_handler string HandlerFS 20 0 (SelStr "d")) None
           empty_options Demo.state0 _ eq_refl eq_refl eq_refl).
Defined.

Lemma db_handler_ignores_input_and_source_witness :
  handle_with Demo.empty_content
    (mkOptions false (StepList ["extract_refs"]) (SelStr "elsewhere") "db" 20 0 7
               "openjur" false)
    Demo.state0
  = handle_with Demo.empty_content (db_options ["extract_refs"]) Demo.state0.
Proof.
  exact (@db_handler_ignores_input_and_source
           string string string Demo.World Demo.sink_process Demo.handle_input
           Demo.get_input_db Demo.files Demo.process_content Demo.PROCESSING_STEPS
           Demo.import_module Demo.empty_content (SelStr "elsewhere") 7 "openjur"
           (db_options ["extract_refs"]) Demo.state0 eq_refl).
Defined.
End HandleDemo.

(** * The model [Case]

    The methods of [oldp/apps/cases/models.py] that compute on the fields
    of a case.  A Python [str] is a [string], one [ascii] for each of its
    characters. *)

Module PyStr.

Definition len (s : string) : Z := Z.of_nat (String.length s).

(** [s[:stop]] *)
Definition slice_to (s : string) (stop : Z) : string :=
  string_of_list_ascii (PySeq.slice_to (list_ascii_of_string s) stop).

(** ['%s' % x] for a value that is a [str] or [None]. *)
Definition format (x : option string) : string :=
  match x with
  | Some s => s
  | None => "None"
  end.

End PyStr.

Module CaseModel.

Record Court : Type := mkCourt {
  court_name : string;
  court_slug : string;
  court_code : string
}.

(** What the field [date] can hold: [None], a [datetime.date], or a text
    that was assigned to it. *)
Inductive date_value : Type :=
| DateNone
| DateOf (year month day : Z)
| DateText (text : string).

(** The fields the methods below read.  [court] is [None] when reading
    the related court raises [Court.DoesNotExist]. *)
Record Case : Type := mkCase {
  slug : option string;
  court : option Court;
  court_chamber : option string;
  date : date_value;
  file_number : option string;
  type : option string;
  private : bool;
  content : string;
  search_snippet : option string
}.

Definition set_slug_attr (v : option string) (c : Case) : Case :=
  mkCase v (court c) (court_chamber c) (date c) (file_number c) (type c)
         (private c) (content c) (search_snippet c).

Section Methods.
(** Library functions: [django.utils.text.slugify], [strip_tags],
    [CaseReferenceMarker.remove_markers], [date.strftime('%Y-%m-%d')] and
    [reverse('cases:case', args=(slug,))]. *)
Variable slugify : string -> string.
Variable strip_tags : string -> string.
Variable remove_markers : string -> string.
Variable strftime_ymd : Z -> Z -> Z -> string.
Variable reverse_case : string -> result string.

Definition get_case_type (c : Case) : option string := type c.

Definition get_title (c : Case) : string :=
  let court_name :=
    match court c with
    | Some ct =>
        match court_chamber c with
        | Some chamber =>
            if negb (String.eqb chamber "")
            then (court_name ct ++ " (" ++ chamber ++ ")")%string
            else court_name ct
        | None => court_name ct
        end
    | None => "(no court)"
    end in
  (PyStr.format (get_case_type c) ++ " vom " ++ court_name ++ " - "
     ++ PyStr.format (file_number c))%string.

Definition get_short_title (c : Case) (max_length : Z) : string :=
  let title := get_title c in
  if PyStr.len title >? max_length
  then (PyStr.slice_to title max_length ++ "...")%string
  else title.

Definition get_text (c : Case) : string := strip_tags (content c).

Definition get_search_snippet (c : Case) (max_length : Z) : string :=
  match search_snippet c with
  | None => PyStr.slice_to (remove_markers (get_text c)) max_length
  | Some snippet => snippet
  end.

(** [get_absolute_url]: the case as the call leaves it, and what the call
    returns. *)
Definition get_absolute_url (c : Case) : Case * result string :=
  let c' :=
    match slug c with
    | None => set_slug_attr (Some "no-slug") c
    | Some s => if String.eqb s "" then set_slug_attr (Some "no-slug") c else c
    end in
  (c', reverse_case (PyStr.format (slug c'))).

Definition max_fn_length : Z := 20.

(** [set_slug]: the parts of the slug are read from left to right, the
    court first. *)
Definition set_slug (c : Case) : Case * result unit :=
  let date_str :=
    match date c with
    | DateOf y m d => strftime_ymd y m d
    | DateText t => t
    | DateNone => "None"
    end in
  match court c with
  | None => (c, Raise (OtherException "Court.DoesNotExist"))
  | Some ct =>
      match file_number c with
      | None => (c, Raise (TypeError "'NoneType' object is not subscriptable"))
      | Some fn =>
          (set_slug_attr
             (Some (court_slug ct ++ "-" ++ date_str ++ "-"
                      ++ slugify (PyStr.slice_to fn max_fn_length))%string) c,
           Ok tt)
      end
  end.
End Methods.
End CaseModel.

Module PyStrFacts.

Lemma length_string_of_list (l : list ascii) :
  String.length (string_of_list_ascii l) = length l.
Proof.
  induction l as [|a r IH]; simpl; [reflexivity | rewrite IH; reflexivity].
Qed.

Lemma length_list_of_string (s : string) :
  length (list_ascii_of_string s) = String.length s.
Proof.
  induction s as [|a r IH]; simpl; [reflexivity | rewrite IH; reflexivity].
Qed.

Lemma length_append (a b : string) :
  String.length (a ++ b) = (String.length a + String.length b)%nat.
Proof.
  induction a as [|x r IH]; simpl; [reflexivity | rewrite IH; reflexivity].
Qed.

Lemma string_of_list_app (l1 l2 : list ascii) :
  string_of_list_ascii (l1 ++ l2)
  = (string_of_list_ascii l1 ++ string_of_list_ascii l2)%string.
Proof.
  induction l1 as [|x r IH]; simpl; [reflexivity | rewrite IH; reflexivity].
Qed.

Lemma str_len_slice_to (s : string) (stop : Z) :
  0 <= stop -> PyStr.len (PyStr.slice_to s stop) = Z.min stop (PyStr.len s).
Proof.
  intros Hs. unfold PyStr.len, PyStr.slice_to.
  rewrite length_string_of_list.
  change (Z.of_nat (length (PySeq.slice_to (list_ascii_of_string s) stop)))
    with (PySeq.len (PySeq.slice_to (list_ascii_of_string s) stop)).
  unfold PySeq.len, PySeq.slice_to.
  rewrite length_firstn, PySeqFacts.clamp_nonneg by assumption.
  rewrite length_list_of_string. lia.
Qed.

(** A slice from the start is a prefix. *)
Lemma slice_to_prefix (s : string) (stop : Z) :
  exists rest, s = (PyStr.slice_to s stop ++ rest)%string.
Proof.
  unfold PyStr.slice_to, PySeq.slice_to.
  set (n := PySeq.clamp (length (list_ascii_of_string s)) stop).
  exists (string_of_list_ascii (skipn n (list_ascii_of_string s))).
  rewrite <- string_of_list_app, firstn_skipn.
  symmetry. apply string_of_list_ascii_of_string.
Qed.
End PyStrFacts.

Module CaseFacts.
Import CaseModel.

(** A title that fits in [max_length] characters is returned as it is;
    a longer one is cut to its first [max_length] characters and gets
    three dots, so that the short title has up to [max_length + 3]
    characters. *)
Theorem short_title_is_cut_to_max_length_plus_dots :
  forall (c : Case) (max_length : Z),
    0 <= max_length ->
    let title := get_title c in
    let short := get_short_title c max_length in
    (PyStr.len title <= max_length -> short = title) /\
    (max_length < PyStr.len title ->
       short = (PyStr.slice_to title max_length ++ "...")%string /\
       PyStr.len short = max_length + 3) /\
    PyStr.len short <= max_length + 3.
Proof.
  intros c max_length Hmax title short.
  assert (Hlong : max_length < PyStr.len title ->
                  short = (PyStr.slice_to title max_length ++ "...")%string /\
                  PyStr.len short = max_length + 3).
  { intros Hlt. unfold short, get_short_title. fold title.
    destruct (Z.gtb_spec (PyStr.len title) max_length) as [_|Hle]; [| lia].
    split; [reflexivity |].
    unfold PyStr.len at 1. rewrite PyStrFacts.length_append.
    pose proof (PyStrFacts.str_len_slice_to title Hmax) as Hs.
    unfold PyStr.len in *. simpl String.length. lia. }
  assert (Hshort : PyStr.len title <= max_length -> short = title).
  { intros Hle. unfold short, get_short_title. fold title.
    destruct (Z.gtb_spec (PyStr.len title) max_length); [lia | reflexivity]. }
  split; [exact Hshort |]. split; [exact Hlong |].
  destruct (Z.le_gt_cases (PyStr.len title) max_length) as [Hle|Hgt].
  - rewrite (Hshort Hle). lia.
  - destruct (Hlong ltac:(lia)) as [_ Hlen]. lia.
Qed.

(** A snippet that is computed is the start of the cleaned text, at
    most [max_length] characters of it; a snippet that the case already
    carries is returned whole, whatever [max_length] is. *)
Theorem search_snippet_is_limited_only_when_computed :
  forall (strip_tags remove_markers : string -> string) (c : Case) (max_length : Z),
    let snippet := get_search_snippet strip_tags remove_markers c max_length in
    (search_snippet c = None -> 0 <= max_length ->
       PyStr.len snippet <= max_length /\
       exists rest,
         remove_markers (strip_tags (content c)) = (snippet ++ rest)%string) /\
    (forall stored, search_snippet c = Some stored -> snippet = stored).
Proof.
  intros strip_tags remove_markers c max_length snippet. split.
  - intros Hnone Hmax. unfold snippet, get_search_snippet, get_text. rewrite Hnone.
    split.
    + rewrite PyStrFacts.str_len_slice_to by assumption. lia.
    + apply PyStrFacts.slice_to_prefix.
  - intros stored Hs. unfold snippet, get_search_snippet. rewrite Hs. reflexivity.
Qed.

(** [get_absolute_url] leaves the case with a slug that is not empty: a
    case without slug is given the slug [no-slug] and keeps it; a case
    with a slug is not changed.  A second call changes nothing and
    returns the same. *)
Theorem absolute_url_gives_a_slug_to_a_case_without :
  forall (reverse_case : string -> result string) (c : Case),
    let c1 := fst (get_absolute_url reverse_case c) in
    (exists s, slug c1 = Some s /\ s <> "") /\
    ((slug c = None \/ slug c = Some "") -> c1 = set_slug_attr (Some "no-slug") c) /\
    (forall s, slug c = Some s -> s <> "" -> c1 = c) /\
    get_absolute_url reverse_case c1 = (c1, snd (get_absolute_url reverse_case c)).
Proof.
  intros reverse_case c c1. unfold c1, get_absolute_url.
  destruct (slug c) as [s|] eqn:Hs.
  - destruct (String.eqb s "") eqn:E; simpl.
    + apply String.eqb_eq in E. subst s.
      split; [exists "no-slug"; split; [reflexivity | discriminate] |].
      split; [reflexivity |]. split; [intros s H; congruence | reflexivity].
    + rewrite Hs, E. simpl. rewrite Hs.
      split; [exists s; split; [reflexivity | apply String.eqb_neq; exact E] |].
      split; [| split; [reflexivity | reflexivity]].
      intros [H|H]; [discriminate H |].
      injection H as ->. discriminate E.
  - simpl.
    split; [exists "no-slug"; split; [reflexivity | discriminate] |].
    split; [reflexivity |]. split; [intros s H; discriminate H | reflexivity].
Qed.

(** Only the first twenty characters of the file number go into the
    slug: two cases of the same court and date whose file numbers agree
    on these get the same slug. *)
Theorem slug_ignores_the_file_number_after_twenty_characters :
  forall (slugify : string -> string) (strftime_ymd : Z -> Z -> Z -> string)
         (c1 c2 : Case) (ct1 ct2 : Court) (fn1 fn2 : string),
    court c1 = Some ct1 -> court c2 = Some ct2 ->
    court_slug ct1 = court_slug ct2 ->
    date c1 = date c2 ->
    file_number c1 = Some fn1 -> file_number c2 = Some fn2 ->
    PyStr.slice_to fn1 20 = PyStr.slice_to fn2 20 ->
    snd (set_slug slugify strftime_ymd c1) = Ok tt /\
    snd (set_slug slugify strftime_ymd c2) = Ok tt /\
    slug (fst (set_slug slugify strftime_ymd c1))
    = slug (fst (set_slug slugify strftime_ymd c2)).
Proof.
  intros slugify strftime_ymd c1 c2 ct1 ct2 fn1 fn2 Hc1 Hc2 Hslug Hdate Hf1 Hf2 Hcut.
  unfold set_slug, max_fn_length.
  rewrite Hc1, Hc2, Hf1, Hf2, Hdate, Hslug, Hcut. simpl.
  split; [reflexivity |]. split; reflexivity.
Qed.
End CaseFacts.

Module CaseDemo.
Import CaseModel CaseFacts.

Definition bgh : Court := mkCourt "Bundesgerichtshof" "bgh" "BGH".

Definition decision (file_no : string) : Case :=
  mkCase None (Some bgh) (Some "1. Senat") (DateOf 2017 1 5) (Some file_no)
         (Some "Urteil") false "<p>Die Revision wird verworfen.</p>" None.

Definition indexed : Case :=
  mkCase (Some "bgh-2017-01-05-i-zr-1-16") (Some bgh) None (DateOf 2017 1 5)
         (Some "I ZR 1/16") (Some "Urteil") false "<p>Text</p>"
         (Some "a snippet kept from the search index").

(** Stand-ins for the library functions. *)
Definition keep (s : string) : string := s.
Definition iso_date (y m d : Z) : string := "2017-01-05".
Definition url_of (s : string) : result string := Ok ("/case/" ++ s)%string.

Lemma short_title_is_cut_to_max_length_plus_dots_witness :
  get_short_title (decision "I ZR 123/16") 20 = "Urteil vom Bundesger..." /\
  PyStr.len (get_short_title (decision "I ZR 123/16") 20) = 20 + 3.
Proof.
  exact (proj1 (proj2 (@short_title_is_cut_to_max_length_plus_dots
                         (decision "I ZR 123/16") 20 ltac:(lia)))
               ltac:(vm_compute; reflexivity)).
Defined.

Lemma search_snippet_is_limited_only_when_computed_witness :
  PyStr.len (get_search_snippet keep keep (decision "I ZR 123/16") 10) <= 10 /\
  get_search_snippet keep keep indexed 10 = "a snippet kept from the search index".
Proof.
  split.
  - exact (proj1 (proj1 (@search_snippet_is_limited_only_when_computed
                           keep keep (decision "I ZR 123/16") 10)
                        eq_refl ltac:(lia))).
  - exact (proj2 (@search_snippet_is_limited_only_when_computed keep keep indexed 10)
                 _ eq_refl).
Defined.

Lemma absolute_url_gives_a_slug_to_a_case_without_witness :
  fst (get_absolute_url url_of (decision "I ZR 123/16"))
    = set_slug_attr (Some "no-slug") (decision "I ZR 123/16") /\
  fst (get_absolute_url url_of indexed) = indexed.
Proof.
  destruct (@absolute_url_gives_a_slug_to_a_case_without url_of
              (decision "I ZR 123/16")) as (_ & Hnone & _).
  destruct (@absolute_url_gives_a_slug_to_a_case_without url_of indexed)
    as (_ & _ & Hkeep & _).
  split.
  - exact (Hnone (or_introl eq_refl)).
  - exact (Hkeep _ eq_refl ltac:(discriminate)).
Defined.

Lemma slug_ignores_the_file_number_after_twenty_characters_witness :
  slug (fst (set_slug keep iso_date (decision "I ZR 123/16, I ZR 124/16")))
  = slug (fst (set_slug keep iso_date (decision "I ZR 123/16, I ZR 125/17"))).
Proof.
  exact (proj2 (proj2 (@slug_ignores_the_file_number_after_twenty_characters
                         keep iso_date
                         (decision "I ZR 123/16, I ZR 124/16")
                         (decision "I ZR 123/16, I ZR 125/17")
                         bgh bgh _ _ eq_refl eq_refl eq_refl eq_refl
                         eq_refl eq_refl eq_refl))).
Defined.
End CaseDemo.
